(** * ViewSync: session gateway, local relay and playback aggregator

    A shallow embedding of the synchronisation core of ViewSync:

    - the socket.io session gateway (the server script): the [rooms] map,
      its handlers for [join-room], [create-room], [play], [pause], [seek],
      [change-video], [send-message] and [disconnect];
    - the local relay of [App.tsx]: [broadcastSyncEvent] and the two
      listeners [handleStorageChange] and [handleBroadcastMessage];
    - the playback aggregator of [App.tsx]: [playAll], [pauseAll],
      [seekAll], [onPlayerReady], [onPlayerStateChange].

    Conventions.  A handler is a function from the state it reads to the
    state it leaves and the calls it makes on the outside world (messages
    emitted on sockets, browser interfaces, player methods), in program
    order.  [console.log] calls are left out, except the one that reports
    the number of surfaces started by [playAll].  Values produced by the
    environment ([uuidv4()], [new Date()], [Date.now()], the state a player
    reports) are arguments of the handler that consumes them.  Playback
    positions are only stored and forwarded, never computed with; they are
    modelled by [Z]. *)

From Stdlib Require Import ZArith.
From stdpp Require Import base option list strings gmap.

Local Open Scope string_scope.
Local Open Scope list_scope.

(** ** Insertion-ordered maps

    A JavaScript [Map] (and an object used as a dictionary with string
    keys that are not array indices) iterates in insertion order; writing
    an existing key keeps its place.  The server depends on that order
    twice: [disconnect] walks [rooms.entries()] up to the first room that
    holds the socket, and promotes [room.users.values().next().value]. *)

Module JsMap.
Section defs.
Context {K V : Type} `{EqDecision K}.

Fixpoint get (k : K) (m : list (K * V)) : option V :=
  match m with
  | [] => None
  | (k', v) :: rest => if decide (k = k') then Some v else get k rest
  end.

Definition has (k : K) (m : list (K * V)) : bool :=
  match get k m with Some _ => true | None => false end.

Fixpoint set (k : K) (v : V) (m : list (K * V)) : list (K * V) :=
  match m with
  | [] => [(k, v)]
  | (k', v') :: rest =>
      if decide (k = k') then (k, v) :: rest else (k', v') :: set k v rest
  end.

Definition delete (k : K) (m : list (K * V)) : list (K * V) :=
  filter (λ kv, kv.1 ≠ k) m.

Definition size (m : list (K * V)) : nat := length m.
Definition keys (m : list (K * V)) : list K := m.*1.
Definition values (m : list (K * V)) : list V := m.*2.
End defs.
End JsMap.

(** ** The session gateway *)

Module Gateway.

Record User := mkUser {
  user_id : string;
  user_name : string;
  isHost : bool;
  socketId : string }.

Record Room := mkRoom {
  room_id : string;
  room_name : string;
  videoUrl : string;
  isPlaying : bool;
  currentTime : Z;
  users : list (string * User);
  createdAt : Z }.

(** The [room] object sent in [room-joined] and [room-created]. *)
Record RoomView := mkRoomView {
  view_id : string;
  view_name : string;
  view_videoUrl : string;
  view_isPlaying : bool;
  view_currentTime : Z }.

Definition room_view (room : Room) : RoomView :=
  {| view_id := room_id room; view_name := room_name room;
     view_videoUrl := videoUrl room; view_isPlaying := isPlaying room;
     view_currentTime := currentTime room |}.

(** Server-to-client messages, by event name. *)
Inductive ServerMsg :=
| error (message : string)
| room_joined (room : RoomView) (user : User) (users : list User)
| user_joined (user : User) (users : list User)
| room_created (room : RoomView) (user : User) (users : list User)
| play (currentTime : Z)
| pause (currentTime : Z)
| seek (currentTime : Z)
| video_changed (videoUrl : string)
| new_message (id userName message timestamp : string)
| user_left (user : User) (users : list User).

(** One [emit]: the sockets it is delivered to and what is sent. *)
Record Emit := mkEmit {
  recipients : gset string;
  payload : ServerMsg }.

(** The state of the process: the [rooms] map of the script, and what
    socket.io keeps: the open connections and, for each socket.io room,
    the sockets that joined it. *)
Record Server := mkServer {
  rooms : list (string * Room);
  sockets : gset string;
  adapter : gmap string (gset string) }.

Definition init : Server :=
  {| rooms := []; sockets := ∅; adapter := ∅ |}.

Definition members (roomId : string) (st : Server) : gset string :=
  default ∅ (adapter st !! roomId).

(** [socket.join(roomId)] *)
Definition socket_join (s roomId : string) (st : Server) : Server :=
  {| rooms := rooms st; sockets := sockets st;
     adapter := <[roomId := {[s]} ∪ members roomId st]> (adapter st) |}.

(** socket.io closes a connection by taking the socket out of every
    room and out of the open connections, then runs the [disconnect]
    listener. *)
Definition socket_close (s : string) (st : Server) : Server :=
  {| rooms := rooms st; sockets := sockets st ∖ {[s]};
     adapter := (λ X, X ∖ {[s]}) <$> adapter st |}.

(** [socket.emit], [socket.to(roomId).emit], [io.to(roomId).emit] *)
Definition socket_emit (s : string) (m : ServerMsg) : Emit :=
  {| recipients := {[s]}; payload := m |}.
Definition socket_to_emit (s roomId : string) (st : Server) (m : ServerMsg) : Emit :=
  {| recipients := members roomId st ∖ {[s]}; payload := m |}.
Definition io_to_emit (roomId : string) (st : Server) (m : ServerMsg) : Emit :=
  {| recipients := members roomId st; payload := m |}.

Definition with_rooms (rs : list (string * Room)) (st : Server) : Server :=
  {| rooms := rs; sockets := sockets st; adapter := adapter st |}.

Definition with_users (us : list (string * User)) (room : Room) : Room :=
  {| room_id := room_id room; room_name := room_name room;
     videoUrl := videoUrl room; isPlaying := isPlaying room;
     currentTime := currentTime room; users := us;
     createdAt := createdAt room |}.

Definition with_playback (playing : bool) (t : Z) (room : Room) : Room :=
  {| room_id := room_id room; room_name := room_name room;
     videoUrl := videoUrl room; isPlaying := playing;
     currentTime := t; users := users room;
     createdAt := createdAt room |}.

Definition with_currentTime (t : Z) (room : Room) : Room :=
  {| room_id := room_id room; room_name := room_name room;
     videoUrl := videoUrl room; isPlaying := isPlaying room;
     currentTime := t; users := users room;
     createdAt := createdAt room |}.

Definition with_video (url : string) (room : Room) : Room :=
  {| room_id := room_id room; room_name := room_name room;
     videoUrl := url; isPlaying := false;
     currentTime := 0; users := users room;
     createdAt := createdAt room |}.

Definition with_isHost (b : bool) (u : User) : User :=
  {| user_id := user_id u; user_name := user_name u; isHost := b;
     socketId := socketId u |}.

(** [io.on('connection', ...)]: before the listener runs, socket.io has
    opened the connection and joined it to the room named by its own
    id; the listener registers the handlers. *)
Definition on_connection (s : string) (st : Server) : Server * list Emit :=
  (socket_join s s
     {| rooms := rooms st; sockets := sockets st ∪ {[s]};
        adapter := adapter st |}, []).

(** [socket.on('join-room', ...)]; [uuid] is the value of [uuidv4()]. *)
Definition on_join_room (s roomId userName uuid : string) (st : Server)
  : Server * list Emit :=
  if negb (JsMap.has roomId (rooms st)) then
    (st, [socket_emit s (error "Room not found")])
  else
    match JsMap.get roomId (rooms st) with
    | None => (st, [])
    | Some room =>
        let isHost := Nat.eqb (JsMap.size (users room)) 0 in
        let user := {| user_id := uuid; user_name := userName;
                       isHost := isHost; socketId := s |} in
        let room' := with_users (JsMap.set s user (users room)) room in
        let st' := socket_join s roomId
                     (with_rooms (JsMap.set roomId room' (rooms st)) st) in
        (st', [ socket_emit s
                  (room_joined (room_view room') user
                     (JsMap.values (users room')));
                socket_to_emit s roomId st'
                  (user_joined user (JsMap.values (users room'))) ])
    end.

(** [socket.on('create-room', ...)]; [roomId] and [uuid] are the two
    values of [uuidv4()], [now] is [new Date()], and [url] is [None]
    when the message carries no [videoUrl]. *)
Definition on_create_room (s roomName userName : string) (url : option string)
    (roomId uuid : string) (now : Z) (st : Server) : Server * list Emit :=
  let user := {| user_id := uuid; user_name := userName;
                 isHost := true; socketId := s |} in
  let room := {| room_id := roomId; room_name := roomName;
                 videoUrl := default "" url;
                 isPlaying := false; currentTime := 0;
                 users := JsMap.set s user [];
                 createdAt := now |} in
  let st' := socket_join s roomId
               (with_rooms (JsMap.set roomId room (rooms st)) st) in
  (st', [ socket_emit s
            (room_created (room_view room) user
               (JsMap.values (users room))) ]).

(** [socket.on('play', ...)] *)
Definition on_play (s roomId : string) (t : Z) (st : Server)
  : Server * list Emit :=
  match JsMap.get roomId (rooms st) with
  | Some room =>
      (with_rooms (JsMap.set roomId (with_playback true t room) (rooms st)) st,
       [socket_to_emit s roomId st (play t)])
  | None => (st, [])
  end.

(** [socket.on('pause', ...)] *)
Definition on_pause (s roomId : string) (t : Z) (st : Server)
  : Server * list Emit :=
  match JsMap.get roomId (rooms st) with
  | Some room =>
      (with_rooms (JsMap.set roomId (with_playback false t room) (rooms st)) st,
       [socket_to_emit s roomId st (pause t)])
  | None => (st, [])
  end.

(** [socket.on('seek', ...)] *)
Definition on_seek (s roomId : string) (t : Z) (st : Server)
  : Server * list Emit :=
  match JsMap.get roomId (rooms st) with
  | Some room =>
      (with_rooms (JsMap.set roomId (with_currentTime t room) (rooms st)) st,
       [socket_to_emit s roomId st (seek t)])
  | None => (st, [])
  end.

(** [socket.on('change-video', ...)] *)
Definition on_change_video (s roomId url : string) (st : Server)
  : Server * list Emit :=
  match JsMap.get roomId (rooms st) with
  | Some room =>
      (with_rooms (JsMap.set roomId (with_video url room) (rooms st)) st,
       [io_to_emit roomId st (video_changed url)])
  | None => (st, [])
  end.

(** [socket.on('send-message', ...)]; [uuid] is [uuidv4()] and [now] is
    [new Date().toISOString()]. *)
Definition on_send_message (s roomId message userName uuid now : string)
    (st : Server) : Server * list Emit :=
  (st, [io_to_emit roomId st (new_message uuid userName message now)]).

(** The loop of the [disconnect] listener stops at the first room, in
    the order of [rooms.entries()], whose [users] holds the socket. *)
Fixpoint find_room (s : string) (rs : list (string * Room))
  : option (string * Room) :=
  match rs with
  | [] => None
  | (roomId, room) :: rest =>
      if JsMap.has s (users room) then Some (roomId, room)
      else find_room s rest
  end.

(** [room.users.values().next().value.isHost = true] *)
Definition promote_first (us : list (string * User)) : list (string * User) :=
  match us with
  | [] => []
  | (k, u) :: rest => (k, with_isHost true u) :: rest
  end.

(** The body of the [disconnect] listener. *)
Definition disconnect_listener (s : string) (st : Server) : Server * list Emit :=
  match find_room s (rooms st) with
  | None => (st, [])
  | Some (roomId, room) =>
      match JsMap.get s (users room) with
      | None => (st, [])
      | Some user =>
          let us := JsMap.delete s (users room) in
          let us' := if isHost user && Nat.ltb 0 (JsMap.size us)
                     then promote_first us else us in
          if Nat.eqb (JsMap.size us') 0 then
            (with_rooms (JsMap.delete roomId (rooms st)) st, [])
          else
            (with_rooms (JsMap.set roomId (with_users us' room) (rooms st)) st,
             [socket_to_emit s roomId st
                (user_left user (JsMap.values us'))])
      end
  end.

Definition on_disconnect (s : string) (st : Server) : Server * list Emit :=
  disconnect_listener s (socket_close s st).

(** What reaches the server: a new connection, or an event on an open
    one, with the values the environment supplies while it is handled. *)
Inductive Input :=
| Connection (s : string)
| JoinRoom (s roomId userName uuid : string)
| CreateRoom (s roomName userName : string) (url : option string)
    (roomId uuid : string) (now : Z)
| Play (s roomId : string) (t : Z)
| Pause (s roomId : string) (t : Z)
| Seek (s roomId : string) (t : Z)
| ChangeVideo (s roomId url : string)
| SendMessage (s roomId message userName uuid now : string)
| Disconnect (s : string).

Definition sender (i : Input) : string :=
  match i with
  | Connection s | JoinRoom s _ _ _ | CreateRoom s _ _ _ _ _ _
  | Play s _ _ | Pause s _ _ | Seek s _ _ | ChangeVideo s _ _
  | SendMessage s _ _ _ _ _ | Disconnect s => s
  end.

Definition step (i : Input) (st : Server) : Server * list Emit :=
  match i with
  | Connection s => on_connection s st
  | JoinRoom s roomId userName uuid => on_join_room s roomId userName uuid st
  | CreateRoom s roomName userName url roomId uuid now =>
      on_create_room s roomName userName url roomId uuid now st
  | Play s roomId t => on_play s roomId t st
  | Pause s roomId t => on_pause s roomId t st
  | Seek s roomId t => on_seek s roomId t st
  | ChangeVideo s roomId url => on_change_video s roomId url st
  | SendMessage s roomId message userName uuid now =>
      on_send_message s roomId message userName uuid now st
  | Disconnect s => on_disconnect s st
  end.

(** A run from the empty server. *)
Fixpoint run (inputs : list Input) (st : Server) : Server :=
  match inputs with
  | [] => st
  | i :: rest => run rest (step i st).1
  end.

(** The id a [create-room] gives its room. *)
Definition creates (i : Input) : option string :=
  match i with
  | CreateRoom _ _ _ _ roomId _ _ => Some roomId
  | _ => None
  end.

(** The socket is still recorded as a participant of some room. *)
Definition recorded (s : string) (st : Server) : bool :=
  existsb (λ e, JsMap.has s (users e.2)) (rooms st).

(** socket.io gives every connection an id of its own: a new
    connection's id is neither open nor still recorded in a room.
    Events other than [Connection] arrive on open connections only. *)
Definition admissible (i : Input) (st : Server) : bool :=
  match i with
  | Connection s => bool_decide (s ∉ sockets st) && negb (recorded s st)
  | _ => bool_decide (sender i ∈ sockets st)
  end.

Fixpoint admissible_all (inputs : list Input) (st : Server) : bool :=
  match inputs with
  | [] => true
  | i :: rest => admissible i st && admissible_all rest (step i st).1
  end.

Inductive reachable : Server → Prop :=
| reachable_init : reachable init
| reachable_step i st :
    reachable st → admissible i st = true → reachable (step i st).1.

(** The participants with [isHost] set. *)
Definition hosts_of (us : list (string * User)) : list User :=
  filter (λ u, isHost u = true) (JsMap.values us).

Definition hosts (room : Room) : list User := hosts_of (users room).

(** The four playback commands, and the event each one produces. *)
Inductive Command :=
| cmd_play (t : Z)
| cmd_pause (t : Z)
| cmd_seek (t : Z)
| cmd_change_video (url : string).

Definition command_input (s roomId : string) (c : Command) : Input :=
  match c with
  | cmd_play t => Play s roomId t
  | cmd_pause t => Pause s roomId t
  | cmd_seek t => Seek s roomId t
  | cmd_change_video url => ChangeVideo s roomId url
  end.

Definition command_event (c : Command) : ServerMsg :=
  match c with
  | cmd_play t => play t
  | cmd_pause t => pause t
  | cmd_seek t => seek t
  | cmd_change_video url => video_changed url
  end.

Definition is_change_video (c : Command) : bool :=
  match c with cmd_change_video _ => true | _ => false end.

(** A participant, recorded in [users], whose connection is open is a
    member of the socket.io room. *)
Definition joined_inv (st : Server) : Prop :=
  ∀ roomId room p,
    (roomId, room) ∈ rooms st →
    is_Some (JsMap.get p (users room)) →
    p ∈ sockets st → p ∈ members roomId st.

(** Every room has a participant, and at most one host. *)
Definition at_most_one_host (st : Server) : Prop :=
  ∀ roomId room,
    (roomId, room) ∈ rooms st →
    users room ≠ [] ∧ (length (hosts room) ≤ 1)%nat.

(** [app.get('/api/rooms', ...)]: what the discovery route answers. *)
Record PublicRoom := mkPublicRoom {
  public_id : string;
  public_name : string;
  userCount : nat;
  public_createdAt : Z }.

Definition api_rooms (st : Server) : list PublicRoom :=
  (λ room, {| public_id := room_id room; public_name := room_name room;
              userCount := JsMap.size (users room);
              public_createdAt := createdAt room |})
  <$> JsMap.values (rooms st).

(** Keys are what they index: a room sits under its own id, a
    participant under its own socket id, and no key occurs twice. *)
Definition well_keyed (st : Server) : Prop :=
  NoDup (JsMap.keys (rooms st)) ∧
  ∀ roomId room,
    (roomId, room) ∈ rooms st →
    room_id room = roomId ∧
    NoDup (JsMap.keys (users room)) ∧
    ∀ k u, (k, u) ∈ users room → socketId u = k.

(** Only open connections are members of a socket.io room. *)
Definition members_open (st : Server) : Prop :=
  ∀ roomId p, p ∈ members roomId st → p ∈ sockets st.

(** An open connection is a member of the room named by its own id. *)
Definition own_room (st : Server) : Prop :=
  ∀ s, s ∈ sockets st → s ∈ members s st.

End Gateway.

(** ** The browser side: [App.tsx] *)

Module App.

(** [YT.PlayerState], as the YouTube IFrame API defines it. *)
Module PlayerState.
Definition UNSTARTED : Z := -1.
Definition ENDED : Z := 0.
Definition PLAYING : Z := 1.
Definition PAUSED : Z := 2.
Definition BUFFERING : Z := 3.
Definition CUED : Z := 5.
End PlayerState.

Record VideoData := mkVideo {
  id : string;
  url : string;
  title : string;
  startTime : Z;
  windowId : option string }.

(** The [data] of a sync event: [{}], [{ time }] or [{ videoId }]. *)
Inductive EventData :=
| no_data
| data_time (time : Z)
| data_videoId (videoId : string).

Record SyncEvent := mkEvent {
  ev_type : string;
  ev_data : EventData;
  ev_timestamp : Z;
  ev_windowId : string }.

(** What the code reads of [window]: its [name], whether
    [window.BroadcastChannel] is defined, and whether
    [window.YT && window.YT.Player] holds. *)
Record Window := mkWindow {
  name : string;
  BroadcastChannel : bool;
  YT_Player : bool }.

(** [window.name || 'main'] *)
Definition own_id (w : Window) : string :=
  if decide (name w = "") then "main" else name w.

(** A method of a player object: not there, there and returning, or
    there and throwing. *)
Inductive Method := absent | returns | throws.

#[export] Instance Method_eq_dec : EqDecision Method.
Proof. solve_decision. Defined.

Inductive StateMethod :=
| state_absent
| state_throws
| state_returns (state : Z).

(** A player, by how its methods answer while one handler and the
    timers it arms run. *)
Record Player := mkPlayer {
  playVideo : Method;
  pauseVideo : Method;
  seekTo : Method;
  getPlayerState : StateMethod;
  destroy : Method }.

(** The calls a handler makes, in program order; a method of a player
    is named by the id the player is registered under.  A position is
    [None] where the code passes [undefined].  The calls are those of a
    run in which no browser interface throws ([setItem], [postMessage],
    [alert]); player methods may throw, and the [catch] blocks only
    log. *)
Inductive Call :=
| setIsPlaying (b : bool)
| setCurrentTime (t : option Z)
| setPlayingVideos_add (videoId : string)
| channel_postMessage (event : SyncEvent)
| localStorage_setItem (key : string) (event : SyncEvent)
| player_playVideo (videoId : string)
| player_pauseVideo (videoId : string)
| player_seekTo (videoId : string) (t : option Z)
| player_destroy (videoId : string)
| alert (message : string)
| log_played (playedCount : nat).

(** The component state a handler closes over.  [readyPlayers] is a
    [Set] and [playersRef.current] an object keyed by video id, both in
    insertion order; a registered value may be [null]. *)
Record State := mkState {
  videos : list VideoData;
  readyPlayers : list string;
  playersRef : list (string * option Player);
  loopEnabled : bool }.

(** *** Local relay *)

Definition broadcastSyncEvent (w : Window) (now : Z)
    (eventType : string) (data : EventData) : list Call :=
  let event := {| ev_type := eventType; ev_data := data;
                  ev_timestamp := now; ev_windowId := own_id w |} in
  (if BroadcastChannel w then [channel_postMessage event] else [])
  ++ [localStorage_setItem "viewsync_event" event].

(** [e.newValue] of a storage event, by what [JSON.parse] makes of it. *)
Inductive StoredValue :=
| json (event : SyncEvent)
| malformed.

Record StorageEvent := mkStorageEvent {
  key : option string;
  newValue : option StoredValue }.

(** [event.data] of a message on the channel; [None] is a falsy value. *)
Record MessageEvent := mkMessageEvent {
  message_data : option SyncEvent }.

(** What a sibling context can make a subscriber see, and the event it
    carries. *)
Inductive Delivery :=
| on_message (m : MessageEvent)
| on_storage (e : StorageEvent).

Definition delivered (d : Delivery) : option SyncEvent :=
  match d with
  | on_message m => message_data m
  | on_storage e =>
      match newValue e with
      | Some (json event) => Some event
      | _ => None
      end
  end.

(** A write on one of the two transports of the relay. *)
Definition is_relay_call (c : Call) : bool :=
  match c with
  | channel_postMessage _ | localStorage_setItem _ _ => true
  | _ => false
  end.

Section listeners.
(** The listeners are set up once, around the [handleSyncEvent] of
    that render; they are stated for any handler. *)
Context {R : Type} (handleSyncEvent : SyncEvent → list R).

Definition handleStorageChange (w : Window) (e : StorageEvent) : list R :=
  if decide (key e = Some "viewsync_event") then
    match newValue e with
    | Some (json event) =>
        if decide (ev_windowId event ≠ own_id w)
        then handleSyncEvent event else []
    | Some malformed => []
    | None => []
    end
  else [].

Definition handleBroadcastMessage (w : Window) (m : MessageEvent) : list R :=
  match message_data m with
  | Some event =>
      if decide (ev_type event ≠ "") then
        if decide (ev_windowId event ≠ own_id w)
        then handleSyncEvent event else []
      else []
  | None => []
  end.

(** The effect registers the channel listener when
    [window.BroadcastChannel] is defined and the storage listener
    otherwise. *)
Definition receive (w : Window) (d : Delivery) : list R :=
  match d with
  | on_message m =>
      if BroadcastChannel w then handleBroadcastMessage w m else []
  | on_storage e =>
      if BroadcastChannel w then [] else handleStorageChange w e
  end.
End listeners.

(** *** Playback aggregator *)

(** [Object.values(playersRef.current).forEach(...)] inside one [try]:
    the first method that throws ends the loop. *)
Fixpoint each_until_throw (method : Player → Method) (call : string → Call)
    (players : list (string * option Player)) : list Call :=
  match players with
  | [] => []
  | (videoId, None) :: rest => each_until_throw method call rest
  | (videoId, Some player) :: rest =>
      match method player with
      | absent => each_until_throw method call rest
      | returns => call videoId :: each_until_throw method call rest
      | throws => [call videoId]
      end
  end.

(** The same loop with the [try] inside its body. *)
Fixpoint each_player (method : Player → Method) (call : string → Call)
    (players : list (string * option Player)) : list Call :=
  match players with
  | [] => []
  | (videoId, None) :: rest => each_player method call rest
  | (videoId, Some player) :: rest =>
      match method player with
      | absent => each_player method call rest
      | _ => call videoId :: each_player method call rest
      end
  end.

(** [event.data.time] *)
Definition time_of (data : EventData) : option Z :=
  match data with
  | data_time time => Some time
  | _ => None
  end.

Definition handleSyncEvent (st : State) (event : SyncEvent) : list Call :=
  if decide (ev_type event = "play") then
    setIsPlaying true
    :: each_until_throw playVideo player_playVideo (playersRef st)
  else if decide (ev_type event = "pause") then
    setIsPlaying false
    :: each_until_throw pauseVideo player_pauseVideo (playersRef st)
  else if decide (ev_type event = "seek") then
    let time := time_of (ev_data event) in
    setCurrentTime time
    :: each_until_throw seekTo (λ v, player_seekTo v time) (playersRef st)
  else [].

Definition pauseAll (w : Window) (now : Z) (st : State) : list Call :=
  if negb (YT_Player w) then []
  else setIsPlaying false
       :: broadcastSyncEvent w now "pause" no_data
       ++ each_player pauseVideo player_pauseVideo (playersRef st).

Definition seekAll (w : Window) (now : Z) (st : State) (time : Z) : list Call :=
  if negb (YT_Player w) then []
  else setCurrentTime (Some time)
       :: broadcastSyncEvent w now "seek" (data_time time)
       ++ each_player seekTo (λ v, player_seekTo v (Some time)) (playersRef st).

(** [videos.length > 0 && videos[0].id === videoId] *)
Definition isFirstVideo (vs : list VideoData) (videoId : string) : bool :=
  match vs with
  | [] => false
  | v :: _ => bool_decide (id v = videoId)
  end.

(** The master clip: the first of [videos]. *)
Definition master (vs : list VideoData) : option string := id <$> head vs.

(** [playersRef.current] is a plain object: a lookup by a name it has
    no property of its own for finds what the object inherits from
    [Object.prototype].  A video id has 11 characters ([extractVideoId]);
    of the inherited names only [constructor] has that length. *)
Definition inherited (key : string) : bool :=
  bool_decide (key ∈ ["constructor"; "hasOwnProperty"; "isPrototypeOf";
                      "propertyIsEnumerable"; "toLocaleString"; "toString";
                      "valueOf"; "__proto__"; "__defineGetter__";
                      "__defineSetter__"; "__lookupGetter__";
                      "__lookupSetter__"]).

(** An inherited value is an object, not [null], with none of the
    methods of a player. *)
Definition no_player : Player :=
  {| playVideo := absent; pauseVideo := absent; seekTo := absent;
     getPlayerState := state_absent; destroy := absent |}.

(** [playersRef.current[videoId]], [undefined] and [null] alike. *)
Definition player_of (st : State) (videoId : string) : option Player :=
  match JsMap.get videoId (playersRef st) with
  | Some registered => registered
  | None => if inherited videoId then Some no_player else None
  end.

Definition onPlayerStateChange (w : Window) (now : Z) (st : State)
    (videoId : string) (data : Z) : list Call :=
  let isFirstVideo := isFirstVideo (videos st) videoId in
  if decide (data = PlayerState.PLAYING) then
    setIsPlaying true
    :: (if isFirstVideo
        then broadcastSyncEvent w now "play" (data_videoId videoId) else [])
  else if decide (data = PlayerState.PAUSED) then
    setIsPlaying false
    :: (if isFirstVideo
        then broadcastSyncEvent w now "pause" (data_videoId videoId) else [])
  else if bool_decide (data = PlayerState.ENDED) && loopEnabled st then
    match player_of st videoId with
    | Some player =>
        match seekTo player with
        | absent => []
        | throws => [player_seekTo videoId (Some 0%Z)]
        | returns =>
            player_seekTo videoId (Some 0%Z)
            :: match playVideo player with
               | absent => []
               | _ => [player_playVideo videoId]
               end
        end
    | None => []
    end
  else [].

(** *** The registry of surfaces *)

(** [addVideo], once the URL has given a video id: the clip goes to the
    end of [videos]; [title] is the text made of its rank. *)
Definition addVideo (videoId newVideoUrl title : string) (st : State) : State :=
  {| videos := videos st
               ++ [{| id := videoId; url := newVideoUrl;
                      title := title; startTime := 0; windowId := None |}];
     readyPlayers := readyPlayers st;
     playersRef := playersRef st;
     loopEnabled := loopEnabled st |}.

(** [new Set([...prev, videoId])] *)
Definition set_add (videoId : string) (ids : list string) : list string :=
  if bool_decide (videoId ∈ ids) then ids else ids ++ [videoId].

(** [onPlayerReady]: the surface is registered under its video id and
    marked ready, and sought to the start time of its clip. *)
Definition onPlayerReady (videoId : string) (target : Player) (st : State)
  : State * list Call :=
  ({| videos := videos st;
      readyPlayers := set_add videoId (readyPlayers st);
      playersRef := JsMap.set videoId (Some target) (playersRef st);
      loopEnabled := loopEnabled st |},
   match list_find (λ v, id v = videoId) (videos st) with
   | Some (_, video) =>
       if bool_decide (0 < startTime video)%Z
       then [player_seekTo videoId (Some (startTime video))] else []
   | None => []
   end).

(** [removeVideo]: the clips of that id leave [videos]; the surface is
    destroyed and then taken out of the registry.  [destroy] is called
    outside any [try]: when it throws, or is not there to be called,
    the handler ends there and the surface stays registered; the update
    of [videos] was queued before.  [readyPlayers] keeps the id. *)
Definition removeVideo (videoId : string) (st : State) : State * list Call :=
  ({| videos := filter (λ v, id v ≠ videoId) (videos st);
      readyPlayers := readyPlayers st;
      playersRef := match player_of st videoId with
                    | Some player =>
                        match destroy player with
                        | returns => JsMap.delete videoId (playersRef st)
                        | _ => playersRef st
                        end
                    | None => playersRef st
                    end;
      loopEnabled := loopEnabled st |},
   match player_of st videoId with
   | Some player =>
       match destroy player with
       | absent => []
       | _ => [player_destroy videoId]
       end
   | None => []
   end).

(** *** [playAll] *)

(** [.filter(([videoId, player]) => player != null)] *)
Definition non_null (entries : list (string * option Player))
  : list (string * Player) :=
  omap (λ e, match e.2 with Some player => Some (e.1, player) | None => None end)
       entries.

(** [Array.from(readyPlayers).map(videoId =>
    [videoId, playersRef.current[videoId]])], without the [null]s. *)
Definition ready_entries (st : State) : list (string * Player) :=
  non_null (map (λ videoId, (videoId, player_of st videoId)) (readyPlayers st)).

(** [Object.entries(playersRef.current)], without the [null]s. *)
Definition available_entries (st : State) : list (string * Player) :=
  non_null (playersRef st).

Definition is_function (m : Method) : bool :=
  match m with absent => false | _ => true end.

(** The entries whose [playVideo] is a function. *)
Definition functional_entries (st : State) : list (string * Player) :=
  filter (λ e, is_function (playVideo e.2)) (non_null (playersRef st)).

(** The callbacks [playAll] hands to [setTimeout]. *)
Inductive Task :=
| start_players (playerEntries : list (string * Player))
| attempt (videoId : string) (player : Player)
| retry_buffering (videoId : string) (player : Player)
| check_results (playerEntries : list (string * Player))
| retry_all (playerEntries : list (string * Player))
| retry_one (videoId : string) (player : Player)
| retry_results.

(** [playAll] up to its first [setTimeout]: the calls made at once and
    the callback armed, with its delay in milliseconds. *)
Definition playAll (w : Window) (now : Z) (st : State)
  : list Call * list (Z * Task) :=
  if negb (YT_Player w) then
    ([alert "YouTube API is not ready yet. Please wait a moment and try again."], [])
  else if Nat.eqb (length (videos st)) 0 then
    ([alert "No videos loaded. Please add some videos first."], [])
  else if Nat.eqb (length (readyPlayers st)) 0
          && negb (Nat.ltb 0 (length (JsMap.keys (playersRef st)))) then
    ([alert "Videos are still loading. Please wait for the videos to load completely."], [])
  else
    let readyPlayersArray :=
      if Nat.ltb 0 (length (readyPlayers st))
      then ready_entries st else available_entries st in
    let readyPlayersArray :=
      if Nat.eqb (length readyPlayersArray) 0
      then functional_entries st else readyPlayersArray in
    if Nat.eqb (length readyPlayersArray) 0 then
      ([alert "No functional video players found. Please refresh the page and try again."], [])
    else
      (setIsPlaying true :: broadcastSyncEvent w now "play" no_data,
       [(500%Z, start_players readyPlayersArray)]).

(** The two counters the callbacks share. *)
Record Counters := mkCounters {
  playedCount : nat;
  retryCount : nat }.

(** [playerEntries.forEach(([videoId, player], index) =>
    setTimeout(..., index * gap))] *)
Definition stagger (gap : Z) (callback : string → Player → Task)
    (playerEntries : list (string * Player)) : list (Z * Task) :=
  imap (λ index e, ((Z.of_nat index * gap)%Z, callback e.1 e.2)) playerEntries.

Definition startable (playerState : Z) : bool :=
  bool_decide (playerState = (-1)%Z)
  || bool_decide (playerState = PlayerState.UNSTARTED)
  || bool_decide (playerState = PlayerState.PAUSED)
  || bool_decide (playerState = PlayerState.CUED).

(** The body of the callback armed for one player, once its state is
    read. *)
Definition attempt_in_state (videoId : string) (player : Player)
    (playerState : Z) (c : Counters) : list Call * list (Z * Task) * Counters :=
  if startable playerState then
    match playVideo player with
    | throws => ([setPlayingVideos_add videoId; player_playVideo videoId], [], c)
    | _ => ([setPlayingVideos_add videoId; player_playVideo videoId], [],
            {| playedCount := S (playedCount c); retryCount := retryCount c |})
    end
  else if bool_decide (playerState = PlayerState.PLAYING) then
    ([setPlayingVideos_add videoId], [],
     {| playedCount := S (playedCount c); retryCount := retryCount c |})
  else if bool_decide (playerState = PlayerState.BUFFERING) then
    ([], [(500%Z, retry_buffering videoId player)], c)
  else ([], [], c).

(** What one callback does when its timer fires: the calls it makes,
    the timers it arms, and the counters it leaves. *)
Definition fire (t : Task) (c : Counters)
  : list Call * list (Z * Task) * Counters :=
  match t with
  | start_players playerEntries =>
      ([],
       (stagger 200%Z attempt playerEntries
        ++ [((Z.of_nat (length playerEntries) * 100 + 1000)%Z,
             check_results playerEntries)])%list,
       {| playedCount := 0; retryCount := retryCount c |})
  | attempt videoId player =>
      if is_function (playVideo player) then
        match getPlayerState player with
        | state_absent => attempt_in_state videoId player (-1)%Z c
        | state_returns playerState =>
            attempt_in_state videoId player playerState c
        | state_throws => ([], [], c)
        end
      else ([], [], c)
  | retry_buffering videoId player =>
      match playVideo player with
      | absent => ([], [], c)
      | returns =>
          ([player_playVideo videoId; setPlayingVideos_add videoId], [], c)
      | throws => ([player_playVideo videoId], [], c)
      end
  | check_results playerEntries =>
      ([log_played (playedCount c)],
       if Nat.eqb (playedCount c) 0
       then [(2000%Z, retry_all playerEntries)] else [],
       c)
  | retry_all playerEntries =>
      ([],
       (stagger 200%Z retry_one playerEntries
        ++ [((Z.of_nat (length playerEntries) * 200 + 1000)%Z,
             retry_results)])%list,
       {| playedCount := playedCount c; retryCount := 0 |})
  | retry_one videoId player =>
      match playVideo player with
      | absent => ([], [], c)
      | returns =>
          ([player_playVideo videoId], [],
           {| playedCount := playedCount c; retryCount := S (retryCount c) |})
      | throws => ([player_playVideo videoId], [], c)
      end
  | retry_results =>
      (if Nat.eqb (retryCount c) 0
       then [alert "Videos are still loading. Please wait a moment and try again."]
       else [],
       [], c)
  end.

(** *** Timers

    A timer fires when it is due; of two timers due together, the one
    armed first fires first. *)
Record Timer := mkTimer {
  due : Z;
  task : Task }.

Fixpoint setTimeout (t : Timer) (queue : list Timer) : list Timer :=
  match queue with
  | [] => [t]
  | t' :: rest =>
      if Z.leb (due t') (due t) then t' :: setTimeout t rest
      else t :: queue
  end.

Definition arm (clock : Z) (armed : list (Z * Task)) (queue : list Timer)
  : list Timer :=
  foldl (λ q a, setTimeout {| due := (clock + a.1)%Z; task := a.2 |} q)
        queue armed.

Record Loop := mkLoop {
  clock : Z;
  queue : list Timer;
  counters : Counters;
  history : list (Task * list Call) }.

Definition tick (l : Loop) : option Loop :=
  match queue l with
  | [] => None
  | t :: rest =>
      let '(calls, armed, c) := fire (task t) (counters l) in
      Some {| clock := due t;
              queue := arm (due t) armed rest;
              counters := c;
              history := history l ++ [(task t, calls)] |}
  end.

Fixpoint run (fuel : nat) (l : Loop) : Loop :=
  match fuel with
  | O => l
  | S fuel' =>
      match tick l with
      | None => l
      | Some l' => run fuel' l'
      end
  end.

(** The number of timers a callback can cause to fire, itself
    included. *)
Definition weight (t : Task) : nat :=
  match t with
  | start_players playerEntries => 4 + 3 * length playerEntries
  | attempt _ _ => 2
  | retry_buffering _ _ => 1
  | check_results playerEntries => 3 + length playerEntries
  | retry_all playerEntries => 2 + length playerEntries
  | retry_one _ _ => 1
  | retry_results => 1
  end.

Definition load (queue : list Timer) : nat :=
  sum_list_with (λ t, weight (task t)) queue.

(** One press of the button: the calls made at once, and the timers
    run until none is left. *)
Definition press (w : Window) (now : Z) (st : State) : list Call * Loop :=
  let '(calls, armed) := playAll w now st in
  let q := arm now armed [] in
  (calls,
   run (load q)
     {| clock := now; queue := q;
        counters := {| playedCount := 0; retryCount := 0 |};
        history := [] |}).

Definition fired (l : Loop) : list Task := (history l).*1.
Definition calls_of (l : Loop) : list Call := concat (history l).*2.
Definition waiting (l : Loop) : list Task := task <$> queue l.

Definition is_attempt (t : Task) : bool :=
  match t with attempt _ _ => true | _ => false end.

Definition is_start (t : Task) : bool :=
  match t with start_players _ => true | _ => false end.

(** The timers a callback arms when it fires at [clock]. *)
Definition timers_of (clock : Z) (armed : list (Z * Task)) : list Timer :=
  (λ a, {| due := (clock + a.1)%Z; task := a.2 |}) <$> armed.

(** An [attempt] that adds one to [playedCount]. *)
Definition counts (t : Task) : bool :=
  match t with
  | attempt videoId player =>
      match playVideo player, getPlayerState player with
      | absent, _ => false
      | _, state_throws => false
      | m, state_absent => bool_decide (m = returns)
      | m, state_returns playerState =>
          if startable playerState then bool_decide (m = returns)
          else bool_decide (playerState = PlayerState.PLAYING)
      end
  | _ => false
  end.

(** The check of the results has fired, and what it logged is the
    number of attempts that had counted until then. *)
Definition reported (targets : list (string * Player)) (l : Loop) : Prop :=
  ∃ before after,
    fired l = before ++ check_results targets :: after ∧
    log_played (length (filter counts before)) ∈ calls_of l.

(** What holds of the loop once [start_players targets] has fired. *)
Record started (targets : list (string * Player)) (l : Loop) : Prop := {
  started_once : ∀ t, t ∈ waiting l → is_start t = false;
  started_attempts :
    ∀ e, e ∈ targets → attempt e.1 e.2 ∈ waiting l ++ fired l;
  started_attempt_count :
    length (filter is_attempt (waiting l ++ fired l)) = length targets;
  started_played :
    playedCount (counters l) = length (filter counts (fired l));
  started_check :
    check_results targets ∈ waiting l ∨ reported targets l }.

(** The event [broadcastSyncEvent] makes. *)
Definition published (w : Window) (now : Z) (eventType : string)
    (data : EventData) : SyncEvent :=
  {| ev_type := eventType; ev_data := data;
     ev_timestamp := now; ev_windowId := own_id w |}.

Definition is_check (t : Task) : bool :=
  match t with check_results _ => true | _ => false end.

(** The attempts [start_players] arms, one for each target. *)
Definition attempts_of (targets : list (string * Player)) : list Task :=
  (λ e, attempt e.1 e.2) <$> targets.

(** How the count that is logged comes about.  Until the check of the
    results fires it waits, alone of its kind, in a queue that keeps the
    order [ahead]; once it has fired, exactly one count has been logged:
    the number of attempts that had counted by then.  [behind] are the
    callbacks that were still waiting at that moment; [left_behind]
    says what the order of the queue makes of them. *)
Record counting (ahead : list Timer → Prop) (left_behind : list Task → Prop)
    (targets : list (string * Player)) (l : Loop) : Prop := {
  counting_started : started targets l;
  counting_attempts :
    filter is_attempt (waiting l ++ fired l) ≡ₚ attempts_of targets;
  counting_log :
    (filter is_check (waiting l) = [check_results targets] ∧
     ahead (queue l) ∧
     ∀ n, log_played n ∉ calls_of l)
    ∨ (filter is_check (waiting l) = [] ∧
       ∃ before after behind,
         fired l = before ++ check_results targets :: after ∧
         (∀ n, log_played n ∈ calls_of l
               ↔ n = length (filter counts before)) ∧
         filter is_attempt (behind ++ before) ≡ₚ attempts_of targets ∧
         left_behind behind) }.

(** The entries a callback holds. *)
Definition entries_of (t : Task) : list (string * Player) :=
  match t with
  | start_players playerEntries | check_results playerEntries
  | retry_all playerEntries => playerEntries
  | attempt videoId player | retry_buffering videoId player
  | retry_one videoId player => [(videoId, player)]
  | retry_results => []
  end.


(** What holds of the timers of one press, for the [targets] its first
    timer was armed with: the callbacks hold entries of [targets] only,
    [playVideo] has been called on such entries only, and a callback
    that has fired has made its calls and armed its timers. *)
Record traced (targets : list (string * Player)) (l : Loop) : Prop := {
  traced_waiting :
    ∀ t e, t ∈ waiting l → e ∈ entries_of t → e ∈ targets;
  traced_playVideo :
    ∀ v, player_playVideo v ∈ calls_of l →
         ∃ p, (v, p) ∈ targets ∧ playVideo p ≠ absent;
  traced_history :
    ∀ t calls, (t, calls) ∈ history l →
      ∃ c, calls = (fire t c).1.1 ∧
           ∀ x, x ∈ (fire t c).1.2.*2 → x ∈ waiting l ++ fired l }.

(** The number of targets whose attempt is due no later than the check
    of the results: the attempt of index [i] is due after [i * 200]
    milliseconds, the check after [length * 100 + 1000]. *)
Definition in_time (targets : list (string * Player)) : nat :=
  length targets / 2 + 6.

(** The check of the results waits in the queue, and the attempts
    behind it are those of [late]. *)
Definition check_splits (targets late : list (string * Player))
    (queue : list Timer) : Prop :=
  ∃ a b tc,
    queue = a ++ tc :: b ∧
    task tc = check_results targets ∧
    Forall (λ t, is_check (task t) = false) a ∧
    filter is_attempt (task <$> b) ≡ₚ attempts_of late.

Definition attempts_left (late : list (string * Player))
    (behind : list Task) : Prop :=
  filter is_attempt behind ≡ₚ attempts_of late.

End App.

(** * Properties *)

(** ** Insertion-ordered maps *)

Section JsMap_facts.
Context {K V : Type} `{EqDecision K}.
Implicit Types (k : K) (v : V) (m : list (K * V)).

Lemma get_set_eq k v m : JsMap.get k (JsMap.set k v m) = Some v.
Proof.
  induction m as [|[k' v'] m IH]; simpl.
  - by rewrite decide_True.
  - destruct (decide (k = k')) as [->|Hne]; simpl.
    + by rewrite decide_True.
    + by rewrite decide_False.
Qed.

Lemma get_set_ne k k' v m :
  k ≠ k' → JsMap.get k' (JsMap.set k v m) = JsMap.get k' m.
Proof.
  intros Hne. induction m as [|[k0 v0] m IH]; simpl.
  - by rewrite decide_False.
  - destruct (decide (k = k0)) as [->|Hk]; simpl.
    + by rewrite !decide_False.
    + destruct (decide (k' = k0)); [done | apply IH].
Qed.

Lemma keys_set_present k v m :
  is_Some (JsMap.get k m) → JsMap.keys (JsMap.set k v m) = JsMap.keys m.
Proof.
  unfold JsMap.keys.
  induction m as [|[k' v'] m IH]; simpl; intros Hk.
  - by destruct Hk.
  - destruct (decide (k = k')) as [->|Hne]; simpl; [done|].
    f_equal. by apply IH.
Qed.

(** A key written for the first time goes to the end. *)
Lemma set_fresh k v m :
  JsMap.get k m = None → JsMap.set k v m = m ++ [(k, v)].
Proof.
  induction m as [|[k' v'] m IH]; simpl; [done|].
  destruct (decide (k = k')); [done|]. intros Hk. by rewrite IH.
Qed.

Lemma get_delete_eq k m : JsMap.get k (JsMap.delete k m) = None.
Proof.
  unfold JsMap.delete.
  induction m as [|[k' v'] m IH]; simpl; [done|].
  rewrite filter_cons. simpl.
  destruct (decide (k' ≠ k)) as [Hne|Heq]; [|done].
  simpl. by rewrite decide_False.
Qed.

Lemma get_delete_ne k k' m :
  k ≠ k' → JsMap.get k' (JsMap.delete k m) = JsMap.get k' m.
Proof.
  intros Hne. unfold JsMap.delete.
  induction m as [|[k0 v0] m IH]; simpl; [done|].
  rewrite filter_cons. simpl.
  destruct (decide (k0 ≠ k)) as [Hk|Hk]; simpl.
  - by rewrite IH.
  - apply dec_stable in Hk. subst k0. by rewrite decide_False.
Qed.

Lemma get_delete_Some k k' v m :
  JsMap.get k' (JsMap.delete k m) = Some v → JsMap.get k' m = Some v.
Proof.
  destruct (decide (k = k')) as [->|Hne].
  - by rewrite get_delete_eq.
  - by rewrite get_delete_ne.
Qed.

Lemma has_get k m : JsMap.has k m = true ↔ is_Some (JsMap.get k m).
Proof.
  unfold JsMap.has. destruct (JsMap.get k m); split; try done.
Qed.

Lemma has_false k m : JsMap.get k m = None → JsMap.has k m = false.
Proof. unfold JsMap.has. by intros ->. Qed.

Lemma get_Some_elem k v m : JsMap.get k m = Some v → (k, v) ∈ m.
Proof.
  induction m as [|[k' v'] m IH]; simpl; [done|].
  destruct (decide (k = k')) as [->|Hne].
  - intros [= ->]. by left.
  - intros Hg. right. by apply IH.
Qed.

Lemma elem_of_set k v m (x : K * V) :
  x ∈ JsMap.set k v m → x = (k, v) ∨ x ∈ m.
Proof.
  induction m as [|[k' v'] m IH]; simpl.
  - intros Hx. apply list_elem_of_singleton in Hx. by left.
  - destruct (decide (k = k')) as [->|Hne]; intros Hx;
      apply elem_of_cons in Hx as [Hx|Hx].
    + by left.
    + right. by right.
    + right. subst x. by left.
    + destruct (IH Hx) as [?|?]; [by left | right; by right].
Qed.

Lemma get_None_not_elem k v m : JsMap.get k m = None → (k, v) ∉ m.
Proof.
  induction m as [|[k' v'] m IH]; simpl; [intros _; apply not_elem_of_nil|].
  destruct (decide (k = k')) as [->|Hne]; [done|].
  intros Hg [[= ? ?]|Hin]%elem_of_cons; [done | by apply IH].
Qed.

Lemma elem_of_delete k m (x : K * V) : x ∈ JsMap.delete k m → x ∈ m.
Proof. unfold JsMap.delete. intros Hx. by apply list_elem_of_filter in Hx as [_ ?]. Qed.
End JsMap_facts.

(** ** The session gateway *)

Section Gateway_facts.
Import Gateway.
Implicit Types (st : Server) (s p roomId : string) (room : Room).

Lemma members_with_rooms roomId rs st :
  members roomId (with_rooms rs st) = members roomId st.
Proof. done. Qed.

Lemma members_socket_join_eq s roomId st :
  members roomId (socket_join s roomId st) = {[s]} ∪ members roomId st.
Proof. unfold members at 1. simpl. by rewrite lookup_insert_eq. Qed.

Lemma members_socket_join_ne s roomId roomId' st :
  roomId ≠ roomId' →
  members roomId' (socket_join s roomId st) = members roomId' st.
Proof. intros Hne. unfold members. simpl. by rewrite lookup_insert_ne. Qed.

Lemma members_socket_join_mono s r roomId st p :
  p ∈ members roomId st → p ∈ members roomId (socket_join s r st).
Proof.
  intros Hp. destruct (decide (r = roomId)) as [->|Hne].
  - rewrite members_socket_join_eq. by apply elem_of_union_r.
  - by rewrite members_socket_join_ne.
Qed.

Lemma members_socket_close s roomId st :
  members roomId (socket_close s st) = members roomId st ∖ {[s]}.
Proof.
  unfold members. simpl. rewrite lookup_fmap.
  destruct (adapter st !! roomId); simpl; [done|].
  apply set_eq. intros x. rewrite elem_of_difference, elem_of_empty. tauto.
Qed.

Lemma get_promote_first p (us : list (string * User)) :
  is_Some (JsMap.get p (promote_first us)) ↔ is_Some (JsMap.get p us).
Proof.
  destruct us as [|[k u] us]; simpl; [done|].
  by destruct (decide (p = k)).
Qed.

Lemma find_room_Some s rs roomId room :
  find_room s rs = Some (roomId, room) →
  JsMap.has s (users room) = true ∧ (roomId, room) ∈ rs.
Proof.
  induction rs as [|[r rm] rs IH]; simpl; [done|].
  destruct (JsMap.has s (users rm)) eqn:Hhas.
  - intros [= -> ->]. split; [done | by left].
  - intros Hf. destruct (IH Hf) as [? ?]. split; [done | by right].
Qed.

(** What the [disconnect] listener leaves of the room it finds. *)
Lemma disconnect_listener_rooms s st roomId room user :
  find_room s (rooms st) = Some (roomId, room) →
  JsMap.get s (users room) = Some user →
  let us := JsMap.delete s (users room) in
  let us' := if isHost user && Nat.ltb 0 (JsMap.size us)
             then promote_first us else us in
  rooms (disconnect_listener s st).1 =
    if Nat.eqb (JsMap.size us') 0
    then JsMap.delete roomId (rooms st)
    else JsMap.set roomId (with_users us' room) (rooms st).
Proof.
  intros Hf Hu. unfold disconnect_listener. rewrite Hf, Hu. simpl.
  by destruct (Nat.eqb _ 0).
Qed.

(** C5: [join-room] for an id that names no room answers the caller
    with the error [Room not found] and nothing else: the server state
    (the rooms, their participants, the socket.io memberships) is the
    one before, and the only message goes to the calling socket. *)
Theorem join_room_not_found s roomId userName uuid st :
  JsMap.get roomId (rooms st) = None →
  on_join_room s roomId userName uuid st
    = (st, [socket_emit s (error "Room not found")])
  ∧ ∀ e, e ∈ (on_join_room s roomId userName uuid st).2 →
         recipients e = {[s]} ∧ payload e = error "Room not found".
Proof.
  intros Hnone.
  assert (on_join_room s roomId userName uuid st
          = (st, [socket_emit s (error "Room not found")])) as Heq.
  { unfold on_join_room. by rewrite (has_false _ _ Hnone). }
  split; [done|]. rewrite Heq. simpl. intros e He.
  apply list_elem_of_singleton in He. by subst e.
Qed.

Lemma join_room_not_found_witness :
  JsMap.get "r0" (rooms init) = None ∧
  on_join_room "s1" "r0" "Bob" "u1" init
    = (init, [socket_emit "s1" (error "Room not found")]).
Proof.
  split; [reflexivity|].
  apply (join_room_not_found "s1" "r0" "Bob" "u1" init). reflexivity.
Defined.

(** C9: a [play], [pause], [seek] or [change-video] whose room id names
    no room does nothing: the server state is unchanged and no message
    is emitted, neither to a participant nor back to the caller. *)
Theorem command_unknown_room s roomId c st :
  JsMap.get roomId (rooms st) = None →
  step (command_input s roomId c) st = (st, []).
Proof.
  intros Hnone. destruct c; simpl;
    unfold on_play, on_pause, on_seek, on_change_video;
    by rewrite Hnone.
Qed.

Lemma command_unknown_room_witness :
  JsMap.get "r0" (rooms init) = None ∧
  step (command_input "s1" "r0" (cmd_seek 42)) init = (init, []).
Proof.
  split; [reflexivity|].
  apply (command_unknown_room "s1" "r0" (cmd_seek 42) init). reflexivity.
Defined.

(** C10: [seek] on an existing room writes [currentTime] and nothing
    else: the room keeps its playing flag, video, participants, name,
    id and creation time and its place in [rooms]; every other room
    and the socket.io state are as before. *)
Theorem seek_frame s roomId t st room :
  JsMap.get roomId (rooms st) = Some room →
  let st' := (on_seek s roomId t st).1 in
  (∃ room', JsMap.get roomId (rooms st') = Some room' ∧
     currentTime room' = t ∧
     isPlaying room' = isPlaying room ∧
     videoUrl room' = videoUrl room ∧
     users room' = users room ∧
     room_name room' = room_name room ∧
     room_id room' = room_id room ∧
     createdAt room' = createdAt room) ∧
  (∀ r, r ≠ roomId → JsMap.get r (rooms st') = JsMap.get r (rooms st)) ∧
  JsMap.keys (rooms st') = JsMap.keys (rooms st) ∧
  sockets st' = sockets st ∧ adapter st' = adapter st.
Proof.
  intros Hget. unfold on_seek. rewrite Hget. simpl.
  split; [|split; [|split]].
  - exists (with_currentTime t room). by rewrite get_set_eq.
  - intros r Hr. by apply get_set_ne.
  - apply keys_set_present. by rewrite Hget.
  - done.
Qed.
Lemma seek_frame_witness :
  let st := run [Connection "a";
                 CreateRoom "a" "R1" "Alice" (Some "M") "r1" "u1" 0;
                 Play "a" "r1" 3] init in
  ∃ room, JsMap.get "r1" (rooms st) = Some room ∧
  ∃ room', JsMap.get "r1" (rooms (on_seek "a" "r1" 42 st).1) = Some room' ∧
           currentTime room' = 42%Z ∧ isPlaying room' = isPlaying room.
Proof.
  intros st. eexists. split; [reflexivity|].
  destruct (seek_frame "a" "r1" 42 st _ eq_refl)
    as [(room' & Hg & Ht & Hp & _) _].
  exists room'. split; [exact Hg|]. split; [exact Ht | exact Hp].
Defined.

Lemma on_join_room_missing s roomId userName uuid st :
  JsMap.get roomId (rooms st) = None →
  on_join_room s roomId userName uuid st
    = (st, [socket_emit s (error "Room not found")]).
Proof. intros Hnone. unfold on_join_room. by rewrite (has_false _ _ Hnone). Qed.

(** A room id that names no room names none until a [create-room]
    draws it. *)
Lemma step_keeps_missing i st roomId :
  JsMap.get roomId (rooms st) = None →
  creates i ≠ Some roomId →
  JsMap.get roomId (rooms (step i st).1) = None.
Proof.
  intros Hnone Hcreate.
  assert (∀ r room0 room1,
    JsMap.get r (rooms st) = Some room0 →
    JsMap.get roomId (JsMap.set r room1 (rooms st)) = None) as Hset.
  { intros r room0 room1 Hg. rewrite get_set_ne; [done|].
    intros ->. congruence. }
  destruct i; simpl in *.
  - done.
  - unfold on_join_room.
    destruct (JsMap.get roomId0 (rooms st)) as [room0|] eqn:Hg.
    2:{ by rewrite (has_false _ _ Hg). }
    assert (JsMap.has roomId0 (rooms st) = true) as ->.
    { apply has_get. by rewrite Hg. }
    simpl. by eapply Hset.
  - rewrite get_set_ne; [done | congruence].
  - unfold on_play.
    destruct (JsMap.get roomId0 (rooms st)) eqn:Hg; [by eapply Hset | done].
  - unfold on_pause.
    destruct (JsMap.get roomId0 (rooms st)) eqn:Hg; [by eapply Hset | done].
  - unfold on_seek.
    destruct (JsMap.get roomId0 (rooms st)) eqn:Hg; [by eapply Hset | done].
  - unfold on_change_video.
    destruct (JsMap.get roomId0 (rooms st)) eqn:Hg; [by eapply Hset | done].
  - done.
  - unfold on_disconnect, disconnect_listener. simpl.
    destruct (find_room s (rooms st)) as [[r rm]|] eqn:Hf; simpl; [|done].
    destruct (JsMap.get s (users rm)) as [user|]; simpl; [|done].
    destruct (find_room_Some _ _ _ _ Hf) as [_ Hrm].
    assert (r ≠ roomId) as Hne.
    { intros ->. by eapply get_None_not_elem. }
    match goal with |- context [Nat.eqb ?n 0] => destruct (Nat.eqb n 0) end;
      simpl.
    + by rewrite get_delete_ne.
    + by rewrite get_set_ne.
Qed.

Lemma run_keeps_missing inputs st roomId :
  JsMap.get roomId (rooms st) = None →
  Forall (λ i, creates i ≠ Some roomId) inputs →
  JsMap.get roomId (rooms (run inputs st)) = None.
Proof.
  revert st. induction inputs as [|i inputs IH]; intros st Hnone Hall; [done|].
  apply Forall_cons in Hall as [Hi Hall]. simpl.
  apply IH; [by apply step_keeps_missing | done].
Qed.

Lemma reachable_run inputs st :
  reachable st → admissible_all inputs st = true → reachable (run inputs st).
Proof.
  revert st. induction inputs as [|i inputs IH]; simpl; intros st Hst Hadm.
  - done.
  - apply andb_true_iff in Hadm as [Hi Hrest].
    apply IH; [by apply reachable_step | done].
Qed.

(** When the participant the [disconnect] listener removes was the
    last one of its room, the room is gone from [rooms] when the
    listener returns and the step emits nothing.  From then on, and
    until a [create-room] draws the same id again, every [join-room]
    for that id is answered [Room not found] and changes nothing. *)
Lemma emptied_room_deleted s st roomId room :
  find_room s (rooms st) = Some (roomId, room) →
  JsMap.size (JsMap.delete s (users room)) = 0 →
  let st' := (on_disconnect s st).1 in
  JsMap.get roomId (rooms st') = None ∧
  (on_disconnect s st).2 = [] ∧
  ∀ inputs, Forall (λ i, creates i ≠ Some roomId) inputs →
    ∀ s' userName uuid,
      on_join_room s' roomId userName uuid (run inputs st')
        = (run inputs st', [socket_emit s' (error "Room not found")]).
Proof.
  intros Hf Hsize st'.
  assert (JsMap.get roomId (rooms st') = None ∧ (on_disconnect s st).2 = [])
    as [Hgone Hquiet].
  { subst st'. unfold on_disconnect, disconnect_listener. simpl. rewrite Hf.
    destruct (find_room_Some _ _ _ _ Hf) as [Hhas _].
    apply has_get in Hhas as [user Huser]. rewrite Huser, Hsize.
    rewrite andb_false_r, Hsize. simpl. split; [apply get_delete_eq | done]. }
  split; [done|]. split; [done|].
  intros inputs Hall s' userName uuid.
  by apply on_join_room_missing, run_keeps_missing.
Qed.

(** C8 fails on the code: the loop of the [disconnect] listener stops
    at the first room that records the socket.  When the socket is also
    the only participant of another room, that room loses its last
    participant and stays in [rooms] as it was, the closed connection
    still in its [users]: the count does not reach 0, the room is not
    deleted, and a later [join-room] for its id is answered
    [room-joined], with the participant that has gone in the list. *)
Theorem last_participant_leaves_room_behind s st roomId room roomId' room'
    user' :
  find_room s (rooms st) = Some (roomId, room) →
  roomId' ≠ roomId →
  JsMap.get roomId' (rooms st) = Some room' →
  users room' = [(s, user')] →
  let st' := (on_disconnect s st).1 in
  (s ∉ sockets st') ∧
  JsMap.get roomId' (rooms st') = Some room' ∧
  ∀ s' userName uuid, s' ≠ s →
    let guest := {| user_id := uuid; user_name := userName;
                    isHost := false; socketId := s' |} in
    ∃ st'' e,
      on_join_room s' roomId' userName uuid st'
        = (st'', [socket_emit s'
                    (room_joined (room_view room') guest [user'; guest]);
                  e]).
Proof.
  intros Hf Hne Hget Husers st'.
  destruct (find_room_Some _ _ _ _ Hf) as [Hhas _].
  apply has_get in Hhas as [user Huser].
  assert (sockets st' = sockets st ∖ {[s]} ∧
          JsMap.get roomId' (rooms st') = Some room') as [Hsockets Hget'].
  { subst st'. unfold on_disconnect, disconnect_listener.
    change (rooms (socket_close s st)) with (rooms st). rewrite Hf, Huser.
    match goal with |- context [Nat.eqb ?n 0] => destruct (Nat.eqb n 0) end;
      cbn [fst with_rooms rooms sockets socket_close].
    - split; [done|]. rewrite get_delete_ne by done. exact Hget.
    - split; [done|]. rewrite get_set_ne by done. exact Hget. }
  split; [|split; [done|]].
  - rewrite Hsockets. apply not_elem_of_difference. right.
    by apply elem_of_singleton.
  - intros s' userName uuid Hs' guest. unfold on_join_room.
    assert (JsMap.has roomId' (rooms st') = true) as ->.
    { apply has_get. by rewrite Hget'. }
    rewrite Hget', Husers. cbn [negb JsMap.size length Nat.eqb JsMap.set].
    rewrite decide_False by done. by eexists _, _.
Qed.

Lemma last_participant_leaves_room_behind_witness :
  let st := run [Connection "a";
                 CreateRoom "a" "R1" "Alice" None "r1" "u1" 0;
                 CreateRoom "a" "R2" "Alice" None "r2" "u2" 1;
                 Connection "b"] init in
  let alice := {| user_id := "u2"; user_name := "Alice"; isHost := true;
                  socketId := "a" |} in
  let bob := {| user_id := "u3"; user_name := "Bob"; isHost := false;
                socketId := "b" |} in
  let st' := (on_disconnect "a" st).1 in
  reachable st ∧ admissible (Disconnect "a") st = true ∧
  ∃ room room',
    find_room "a" (rooms st) = Some ("r1", room) ∧
    ("r2" ≠ "r1") ∧
    JsMap.get "r2" (rooms st) = Some room' ∧
    users room' = [("a", alice)] ∧
    JsMap.get "r1" (rooms st') = None ∧
    ("a" ∉ sockets st') ∧
    JsMap.get "r2" (rooms st') = Some room' ∧
    ∃ st'' e,
      on_join_room "b" "r2" "Bob" "u3" st'
        = (st'', [socket_emit "b"
                    (room_joined (room_view room') bob [alice; bob]);
                  e]).
Proof.
  intros st alice bob st'.
  assert (reachable st) as Hreach.
  { apply reachable_run; [apply reachable_init | by vm_compute]. }
  split; [done|]. split; [by vm_compute|].
  eexists _, _. split; [reflexivity|].
  assert ("r2" ≠ "r1") as Hne by done.
  assert ("b" ≠ "a") as Hba by done.
  split; [done|]. split; [reflexivity|]. split; [reflexivity|].
  split; [reflexivity|].
  destruct (last_participant_leaves_room_behind "a" st "r1" _ "r2" _ alice
              eq_refl Hne eq_refl eq_refl) as (Hclosed & Hstays & Hjoin).
  split; [exact Hclosed|]. split; [exact Hstays|].
  exact (Hjoin "b" "Bob" "u3" Hba).
Defined.

(** *** Who receives a multicast *)

Lemma recorded_false s st roomId room :
  recorded s st = false → (roomId, room) ∈ rooms st →
  JsMap.get s (users room) = None.
Proof.
  unfold recorded. intros Hrec Hin.
  destruct (JsMap.get s (users room)) as [u|] eqn:Hg; [|done].
  assert (existsb (λ e, JsMap.has s (users e.2)) (rooms st) = true) as Hex.
  { apply existsb_exists. exists (roomId, room). split.
    - by apply list_elem_of_In.
    - simpl. apply has_get. by rewrite Hg. }
  congruence.
Qed.

Lemma joined_inv_set_same_users st roomId room0 room1 :
  joined_inv st →
  JsMap.get roomId (rooms st) = Some room0 →
  users room1 = users room0 →
  joined_inv (with_rooms (JsMap.set roomId room1 (rooms st)) st).
Proof.
  intros Hinv Hg Hus r room p. simpl.
  intros [[= -> ->]|Hin]%elem_of_set Hp Hopen.
  - rewrite members_with_rooms. rewrite Hus in Hp.
    eapply Hinv; [by apply get_Some_elem | done | done].
  - rewrite members_with_rooms. by eapply Hinv.
Qed.

Lemma joined_inv_socket_close s st :
  joined_inv st → joined_inv (socket_close s st).
Proof.
  intros Hinv r room p Hin Hp Hopen. simpl in *.
  rewrite members_socket_close.
  apply elem_of_difference in Hopen as [Hopen Hne].
  apply elem_of_difference. split; [by eapply Hinv | done].
Qed.

Lemma joined_inv_disconnect_listener s st :
  joined_inv st → joined_inv (disconnect_listener s st).1.
Proof.
  intros Hinv. unfold disconnect_listener.
  destruct (find_room s (rooms st)) as [[r rm]|] eqn:Hf; simpl; [|done].
  destruct (JsMap.get s (users rm)) as [user|]; simpl; [|done].
  set (us := JsMap.delete s (users rm)).
  set (us' := if isHost user && Nat.ltb 0 (JsMap.size us)
              then promote_first us else us).
  destruct (find_room_Some _ _ _ _ Hf) as [_ Hrm].
  destruct (Nat.eqb (JsMap.size us') 0); simpl.
  - intros r' room p Hin%elem_of_delete Hp Hopen. by eapply Hinv.
  - intros r' room p [[= -> ->]|Hin]%elem_of_set Hp Hopen;
      [|by eapply Hinv].
    simpl in Hp. rewrite members_with_rooms.
    eapply (Hinv _ rm); [done| |done].
    assert (is_Some (JsMap.get p us)) as [u Hu].
    { subst us'. destruct (isHost user && Nat.ltb 0 (JsMap.size us));
        [by apply get_promote_first | done]. }
    exists u. by eapply get_delete_Some.
Qed.

Lemma joined_inv_step i st :
  joined_inv st → admissible i st = true → joined_inv (step i st).1.
Proof.
  intros Hinv Hadm. destruct i; simpl in *.
  - apply andb_true_iff in Hadm as [_ Hrec%negb_true_iff].
    intros r room p Hin Hp Hopen. simpl in *.
    apply elem_of_union in Hopen as [Hopen|Heq].
    + apply members_socket_join_mono. by eapply Hinv.
    + apply elem_of_singleton in Heq as ->.
      rewrite (recorded_false _ _ _ _ Hrec Hin) in Hp. by destruct Hp.
  - unfold on_join_room.
    destruct (JsMap.get roomId (rooms st)) as [room0|] eqn:Hg.
    2:{ by rewrite (has_false _ _ Hg). }
    assert (JsMap.has roomId (rooms st) = true) as ->.
    { apply has_get. by rewrite Hg. }
    simpl. intros r room p. simpl.
    intros [[= -> ->]|Hin]%elem_of_set Hp Hopen.
    + rewrite members_socket_join_eq. simpl in Hp.
      destruct (decide (s = p)) as [->|Hne]; [set_solver|].
      rewrite get_set_ne in Hp by done.
      apply elem_of_union_r. rewrite members_with_rooms.
      eapply Hinv; [by apply get_Some_elem | done | done].
    + destruct (decide (roomId = r)) as [->|Hne].
      * rewrite members_socket_join_eq. apply elem_of_union_r.
        rewrite members_with_rooms. by eapply Hinv.
      * rewrite members_socket_join_ne by done.
        rewrite members_with_rooms. by eapply Hinv.
  - unfold on_create_room. simpl. intros r room p. simpl.
    intros [[= -> ->]|Hin]%elem_of_set Hp Hopen.
    + rewrite members_socket_join_eq. simpl in Hp.
      destruct (decide (p = s)) as [->|Hne]; [set_solver | by destruct Hp].
    + destruct (decide (roomId = r)) as [->|Hne].
      * rewrite members_socket_join_eq. apply elem_of_union_r.
        rewrite members_with_rooms. by eapply Hinv.
      * rewrite members_socket_join_ne by done.
        rewrite members_with_rooms. by eapply Hinv.
  - unfold on_play.
    destruct (JsMap.get roomId (rooms st)) as [room0|] eqn:Hg; [|done].
    by eapply joined_inv_set_same_users.
  - unfold on_pause.
    destruct (JsMap.get roomId (rooms st)) as [room0|] eqn:Hg; [|done].
    by eapply joined_inv_set_same_users.
  - unfold on_seek.
    destruct (JsMap.get roomId (rooms st)) as [room0|] eqn:Hg; [|done].
    by eapply joined_inv_set_same_users.
  - unfold on_change_video.
    destruct (JsMap.get roomId (rooms st)) as [room0|] eqn:Hg; [|done].
    by eapply joined_inv_set_same_users.
  - done.
  - unfold on_disconnect.
    by apply joined_inv_disconnect_listener, joined_inv_socket_close.
Qed.

Lemma reachable_joined st : reachable st → joined_inv st.
Proof.
  induction 1 as [|i st _ IH Hadm].
  - intros roomId room p Hin. by apply elem_of_nil in Hin.
  - by apply joined_inv_step.
Qed.

(** The one message a command on an existing room emits. *)
Lemma command_emits s roomId room c st :
  JsMap.get roomId (rooms st) = Some room →
  (step (command_input s roomId c) st).2 =
    [ {| recipients := if is_change_video c then members roomId st
                       else members roomId st ∖ {[s]};
         payload := command_event c |} ].
Proof.
  intros Hg. destruct c; simpl;
    unfold on_play, on_pause, on_seek, on_change_video; by rewrite Hg.
Qed.

(** C1, as the code has it: a command on an existing room emits one
    event, to the sockets joined to the room.  Every participant whose
    connection is open, other than the sender, is among them.  For
    [play], [pause] and [seek] the sender is not; for [change-video] the
    sender is, as soon as it is a participant of the room. *)
Theorem command_multicast st s roomId room c :
  reachable st →
  JsMap.get roomId (rooms st) = Some room →
  ∃ e, (step (command_input s roomId c) st).2 = [e] ∧
       payload e = command_event c ∧
       (∀ p, is_Some (JsMap.get p (users room)) → p ∈ sockets st →
             p ≠ s → p ∈ recipients e) ∧
       (is_change_video c = false → s ∉ recipients e) ∧
       (is_change_video c = true →
        is_Some (JsMap.get s (users room)) → s ∈ sockets st →
        s ∈ recipients e).
Proof.
  intros Hreach Hg. eexists. split; [by eapply command_emits|]. simpl.
  pose proof (reachable_joined _ Hreach) as Hinv.
  pose proof (get_Some_elem _ _ _ Hg) as Hin.
  split; [done|]. split; [|split].
  - intros p Hp Hopen Hne.
    pose proof (Hinv _ _ _ Hin Hp Hopen) as Hmem.
    destruct (is_change_video c); set_solver.
  - intros ->. apply not_elem_of_difference. right. by apply elem_of_singleton.
  - intros -> Hp Hopen. by eapply Hinv.
Qed.

Lemma command_multicast_witness :
  let st := run [Connection "a";
                 CreateRoom "a" "R1" "Alice" (Some "M") "r1" "u1" 0;
                 Connection "b";
                 JoinRoom "b" "r1" "Bob" "u2"] init in
  reachable st ∧
  ∃ room, JsMap.get "r1" (rooms st) = Some room ∧
  ∃ e, (step (command_input "a" "r1" (cmd_play 0)) st).2 = [e] ∧
       payload e = play 0.
Proof.
  intros st.
  assert (reachable st) as Hreach.
  { apply reachable_run; [apply reachable_init | by vm_compute]. }
  split; [done|]. eexists. split; [reflexivity|].
  destruct (command_multicast st "a" "r1" _ (cmd_play 0) Hreach eq_refl)
    as (e & He & Hp & _).
  exists e. split; [exact He | exact Hp].
Defined.

(** C1 as stated fails for [change-video]: Alice, host and only
    participant of her room, changes the video and the event comes back
    on her own connection. *)
Lemma change_video_echoes_sender :
  let st := run [Connection "a";
                 CreateRoom "a" "R1" "Alice" (Some "M") "r1" "u1" 0] init in
  reachable st ∧
  is_Some (JsMap.get "r1" (rooms st)) ∧
  ∃ e, e ∈ (step (command_input "a" "r1" (cmd_change_video "N")) st).2 ∧
       payload e = video_changed "N" ∧ "a" ∈ recipients e.
Proof.
  intros st. split; [|split].
  - apply reachable_run; [apply reachable_init | by vm_compute].
  - eexists. reflexivity.
  - eexists. split; [by left|]. split; [done|].
    apply (bool_decide_unpack _). by vm_compute.
Qed.

(** The loop of the [disconnect] listener stops at the first room that
    holds the socket.  A socket that created two rooms stays recorded in
    the second after it has gone; a command there no longer reaches
    it. *)
Example closed_connection_still_recorded :
  let st := run [Connection "a";
                 CreateRoom "a" "R1" "Alice" None "r1" "u1" 0;
                 CreateRoom "a" "R2" "Alice" None "r2" "u2" 1;
                 Connection "b";
                 JoinRoom "b" "r2" "Bob" "u3";
                 Disconnect "a"] init in
  reachable st ∧
  JsMap.keys <$> (users <$> JsMap.get "r2" (rooms st)) = Some ["a"; "b"] ∧
  ("a" ∉ sockets st) ∧
  (step (Play "b" "r2" 0) st).2 = [{| recipients := ∅; payload := play 0 |}].
Proof.
  intros st. split; [|split; [|split]].
  - apply reachable_run; [apply reachable_init | by vm_compute].
  - by vm_compute.
  - apply (bool_decide_unpack _). by vm_compute.
  - by vm_compute.
Qed.

(** *** Hosts *)

(** C4 fails on the code: a socket that has created a room and then
    sends [join-room] for it overwrites its own record with
    [isHost = false]; the room is left with one participant and no
    host. *)
Theorem rejoin_leaves_no_host :
  let st := run [Connection "a";
                 CreateRoom "a" "R1" "Alice" (Some "M") "r1" "u1" 0;
                 JoinRoom "a" "r1" "Alice" "u2"] init in
  reachable st ∧
  ∃ room, JsMap.get "r1" (rooms st) = Some room ∧
          JsMap.keys (users room) = ["a"] ∧
          hosts room = [].
Proof.
  intros st. split.
  - apply reachable_run; [apply reachable_init | by vm_compute].
  - eexists. split; [reflexivity|]. by split.
Qed.

(** No room is ever empty or has two hosts. *)
Lemma hosts_of_cons k u (us : list (string * User)) :
  hosts_of ((k, u) :: us)
  = if isHost u then u :: hosts_of us else hosts_of us.
Proof.
  unfold hosts_of, JsMap.values. rewrite fmap_cons, filter_cons.
  cbn [snd]. by destruct (isHost u).
Qed.

Lemma hosts_of_set_guest k u (us : list (string * User)) :
  isHost u = false →
  (length (hosts_of (JsMap.set k u us)) ≤ length (hosts_of us))%nat.
Proof.
  intros Hu. induction us as [|[k' u'] us IH]; cbn [JsMap.set].
  - by rewrite hosts_of_cons, Hu.
  - destruct (decide (k = k')) as [->|Hne]; rewrite !hosts_of_cons.
    + rewrite Hu. destruct (isHost u'); cbn [length]; lia.
    + destruct (isHost u'); cbn [length]; lia.
Qed.

Lemma delete_cons s k u (us : list (string * User)) :
  JsMap.delete s ((k, u) :: us)
  = if decide (k = s) then JsMap.delete s us else (k, u) :: JsMap.delete s us.
Proof.
  unfold JsMap.delete. rewrite filter_cons. cbn [fst].
  destruct (decide (k = s)) as [->|Hne].
  - by rewrite decide_False by (by intros ?).
  - by rewrite decide_True.
Qed.

Lemma hosts_of_delete s (us : list (string * User)) :
  (length (hosts_of (JsMap.delete s us)) ≤ length (hosts_of us))%nat.
Proof.
  induction us as [|[k u] us IH]; [done|].
  rewrite delete_cons. destruct (decide (k = s)); rewrite !hosts_of_cons;
    destruct (isHost u); cbn [length]; lia.
Qed.

Lemma hosts_of_delete_host s u (us : list (string * User)) :
  JsMap.get s us = Some u → isHost u = true →
  (S (length (hosts_of (JsMap.delete s us))) ≤ length (hosts_of us))%nat.
Proof.
  intros Hg Hu. induction us as [|[k u'] us IH]; [done|].
  cbn [JsMap.get] in Hg. rewrite delete_cons, hosts_of_cons.
  destruct (decide (s = k)) as [->|Hne].
  - injection Hg as ->. rewrite decide_True, Hu by done.
    pose proof (hosts_of_delete k us). cbn [length]. lia.
  - specialize (IH Hg). rewrite decide_False by congruence.
    rewrite hosts_of_cons. destruct (isHost u'); cbn [length]; lia.
Qed.

Lemma hosts_of_promote_first (us : list (string * User)) :
  hosts_of us = [] → (length (hosts_of (promote_first us)) ≤ 1)%nat.
Proof.
  destruct us as [|[k u] us]; [intros _; cbn; lia|]. cbn [promote_first].
  rewrite !hosts_of_cons. cbn [isHost with_isHost].
  destruct (isHost u); [done|]. intros ->. cbn. lia.
Qed.

Lemma at_most_one_host_step i st :
  at_most_one_host st → at_most_one_host (step i st).1.
Proof.
  intros Hinv.
  assert (∀ roomId room0 room1,
    JsMap.get roomId (rooms st) = Some room0 →
    users room1 = users room0 →
    at_most_one_host (with_rooms (JsMap.set roomId room1 (rooms st)) st))
    as Hsame.
  { intros r room0 room1 Hg Hus r' room. simpl.
    intros [[= -> ->]|Hin]%elem_of_set; [|by apply (Hinv r')].
    unfold hosts. rewrite Hus. apply (Hinv r), get_Some_elem, Hg. }
  destruct i; simpl.
  - apply Hinv.
  - unfold on_join_room.
    destruct (JsMap.get roomId (rooms st)) as [room0|] eqn:Hg.
    2:{ by rewrite (has_false _ _ Hg). }
    assert (JsMap.has roomId (rooms st) = true) as ->.
    { apply has_get. by rewrite Hg. }
    destruct (Hinv _ _ (get_Some_elem _ _ _ Hg)) as [Hne Hone].
    simpl. intros r room.
    intros [[= -> ->]|Hin]%elem_of_set; [|by apply (Hinv r)].
    simpl. split.
    + by destruct (users room0) as [|[k u] us]; simpl;
        [|destruct (decide (s = k))].
    + etrans; [|exact Hone]. apply hosts_of_set_guest. cbn [isHost].
      by destruct (users room0).
  - unfold on_create_room. simpl. intros r room.
    intros [[= -> ->]|Hin]%elem_of_set; [|by apply (Hinv r)].
    split; [done|]. unfold hosts. cbn [users].
    change (filter _ (JsMap.values ?us)) with (hosts_of us).
    rewrite hosts_of_cons. cbn. lia.
  - unfold on_play.
    destruct (JsMap.get roomId (rooms st)) as [room0|] eqn:Hg; [|done].
    by eapply Hsame.
  - unfold on_pause.
    destruct (JsMap.get roomId (rooms st)) as [room0|] eqn:Hg; [|done].
    by eapply Hsame.
  - unfold on_seek.
    destruct (JsMap.get roomId (rooms st)) as [room0|] eqn:Hg; [|done].
    by eapply Hsame.
  - unfold on_change_video.
    destruct (JsMap.get roomId (rooms st)) as [room0|] eqn:Hg; [|done].
    by eapply Hsame.
  - apply Hinv.
  - unfold on_disconnect, disconnect_listener. simpl.
    destruct (find_room s (rooms st)) as [[r rm]|] eqn:Hf; simpl;
      [|apply Hinv].
    destruct (JsMap.get s (users rm)) as [user|] eqn:Hu; simpl;
      [|apply Hinv].
    destruct (find_room_Some _ _ _ _ Hf) as [_ Hrm].
    destruct (Hinv _ _ Hrm) as [_ Hone].
    set (us := JsMap.delete s (users rm)).
    set (us' := if isHost user && Nat.ltb 0 (JsMap.size us)
                then promote_first us else us).
    destruct (Nat.eqb (JsMap.size us') 0) eqn:Hsz; simpl.
    + intros r' room Hin%elem_of_delete. by apply (Hinv r').
    + intros r' room.
      intros [[= -> ->]|Hin]%elem_of_set; [|by apply (Hinv r')].
      simpl. split.
      * intros Hnil. by rewrite Hnil in Hsz.
      * unfold hosts. simpl. fold (hosts_of us'). subst us'.
        destruct (isHost user) eqn:Hhost; simpl.
        -- pose proof (hosts_of_delete_host _ _ _ Hu Hhost) as Hlt.
           fold us in Hlt. unfold hosts in Hone. fold (hosts_of (users rm)) in Hone.
           assert (hosts_of us = []) as Hnone.
           { apply length_zero_iff_nil. lia. }
           destruct (Nat.ltb 0 (JsMap.size us));
             [by apply hosts_of_promote_first | rewrite Hnone; cbn; lia].
        -- pose proof (hosts_of_delete s (users rm)) as Hle.
           fold us in Hle. unfold hosts in Hone.
           fold (hosts_of (users rm)) in Hone. lia.
Qed.

Lemma reachable_at_most_one_host st : reachable st → at_most_one_host st.
Proof.
  induction 1 as [|i st _ IH _].
  - intros roomId room Hin. by apply elem_of_nil in Hin.
  - by apply at_most_one_host_step.
Qed.

(** When the host leaves and others remain, the first remaining
    participant in the order of insertion into [users] is made host. *)
Lemma host_leaves_first_promoted s st roomId room user k u rest :
  find_room s (rooms st) = Some (roomId, room) →
  JsMap.get s (users room) = Some user →
  isHost user = true →
  JsMap.delete s (users room) = (k, u) :: rest →
  rooms (on_disconnect s st).1
    = JsMap.set roomId
        (with_users ((k, with_isHost true u) :: rest) room) (rooms st).
Proof.
  intros Hf Hu Hhost Hrest. unfold on_disconnect.
  rewrite (disconnect_listener_rooms s (socket_close s st) roomId room user)
    by done.
  rewrite Hrest, Hhost. done.
Qed.

(** The scenario of a room: Alice creates it, Bob joins, Alice plays,
    Alice leaves, Bob leaves. *)
Example scenario_room :
  let alice := {| user_id := "u1"; user_name := "Alice"; isHost := true;
                  socketId := "a" |} in
  let bob := {| user_id := "u2"; user_name := "Bob"; isHost := false;
                socketId := "b" |} in
  let st1 := run [Connection "a";
                  CreateRoom "a" "R1" "Alice" (Some "M") "r1" "u1" 0] init in
  let st2 := run [Connection "b"; JoinRoom "b" "r1" "Bob" "u2"] st1 in
  let st3 := run [Play "a" "r1" 0] st2 in
  let st4 := run [Disconnect "a"] st3 in
  let st5 := run [Disconnect "b"] st4 in
  (room_view <$> JsMap.get "r1" (rooms st1))
    = Some {| view_id := "r1"; view_name := "R1"; view_videoUrl := "M";
              view_isPlaying := false; view_currentTime := 0 |} ∧
  (JsMap.values ∘ users <$> JsMap.get "r1" (rooms st2)) = Some [alice; bob] ∧
  (step (Play "a" "r1" 0) st2).2
    = [{| recipients := {["b"]}; payload := play 0 |}] ∧
  (JsMap.values ∘ users <$> JsMap.get "r1" (rooms st4))
    = Some [with_isHost true bob] ∧
  rooms st5 = [].
Proof. by vm_compute. Qed.

End Gateway_facts.

(** ** The local relay *)

Section Relay_facts.
Import App.

Lemma broadcast_without_channel n yt now eventType data :
  let w := {| name := n; BroadcastChannel := false; YT_Player := yt |} in
  broadcastSyncEvent w now eventType data
    = [localStorage_setItem "viewsync_event"
         {| ev_type := eventType; ev_data := data;
            ev_timestamp := now; ev_windowId := own_id w |}].
Proof. done. Qed.

(** C3 fails on the code: with [window.BroadcastChannel] defined,
    [broadcastSyncEvent] posts the event on the channel and then writes
    it to the [viewsync_event] slot of [localStorage] all the same. *)
Theorem broadcast_with_channel_writes_slot n yt now eventType data :
  let w := {| name := n; BroadcastChannel := true; YT_Player := yt |} in
  let event := {| ev_type := eventType; ev_data := data;
                  ev_timestamp := now; ev_windowId := own_id w |} in
  broadcastSyncEvent w now eventType data
    = [channel_postMessage event;
       localStorage_setItem "viewsync_event" event].
Proof. done. Qed.

(** C6: an event whose [windowId] is the subscriber's own
    [window.name || 'main'] is never handed to [handleSyncEvent],
    whichever listener receives it and whatever the handler is. *)
Theorem own_event_not_applied {R} (handler : SyncEvent → list R) w d event :
  delivered d = Some event →
  ev_windowId event = own_id w →
  receive handler w d = [] ∧
  match d with
  | on_message m => handleBroadcastMessage handler w m = []
  | on_storage e => handleStorageChange handler w e = []
  end.
Proof.
  intros Hd Hown.
  assert (match d with
          | on_message m => handleBroadcastMessage handler w m = []
          | on_storage e => handleStorageChange handler w e = []
          end) as Hlisten.
  { destruct d as [m|e]; simpl in Hd.
    - unfold handleBroadcastMessage. rewrite Hd.
      destruct (decide (ev_type event ≠ "")); [|done].
      by rewrite decide_False by (intros Hne; by apply Hne).
    - unfold handleStorageChange.
      destruct (decide (key e = Some "viewsync_event")); [|done].
      destruct (newValue e) as [[ev|]|]; try done.
      injection Hd as ->.
      by rewrite decide_False by (intros Hne; by apply Hne). }
  split; [|done].
  destruct d as [m|e]; simpl; destruct (BroadcastChannel w); done.
Qed.

Lemma own_event_not_applied_witness :
  let w := {| name := "sync-1"; BroadcastChannel := true; YT_Player := true |} in
  let event := {| ev_type := "play"; ev_data := no_data;
                  ev_timestamp := 7; ev_windowId := "sync-1" |} in
  let d := on_message {| message_data := Some event |} in
  delivered d = Some event ∧ ev_windowId event = own_id w ∧
  receive (λ ev, [ev]) w d = [].
Proof.
  intros w event d. split; [reflexivity|]. split; [reflexivity|].
  apply (own_event_not_applied (λ ev, [ev]) w d event); reflexivity.
Defined.

(** An event of another context does reach the handler. *)
Lemma foreign_event_applied {R} (handler : SyncEvent → list R) w event :
  ev_windowId event ≠ own_id w → ev_type event ≠ "" →
  handleBroadcastMessage handler w {| message_data := Some event |}
    = handler event ∧
  handleStorageChange handler w
    {| key := Some "viewsync_event"; newValue := Some (json event) |}
    = handler event.
Proof.
  intros Hforeign Htype.
  unfold handleBroadcastMessage, handleStorageChange. simpl.
  by rewrite !decide_True.
Qed.

End Relay_facts.

(** ** The playback aggregator *)

Section Aggregator_facts.
Import App.

Lemma broadcast_is_relay w now eventType data :
  existsb is_relay_call (broadcastSyncEvent w now eventType data) = true.
Proof. unfold broadcastSyncEvent. by destruct (BroadcastChannel w). Qed.

Lemma isFirstVideo_master vs videoId :
  isFirstVideo vs videoId = true ↔ master vs = Some videoId.
Proof.
  unfold master. destruct vs as [|v vs]; simpl; [done|].
  rewrite bool_decide_eq_true. split; [by intros -> | by intros [= ->]].
Qed.

(** C7: on a [PLAYING] or [PAUSED] state change of a surface, the
    handler sets the local playing flag, and it writes to the relay
    exactly when the surface is the master clip, the first of [videos];
    for any other surface setting the flag is all it does. *)
Theorem master_alone_broadcasts w now st videoId data :
  data = PlayerState.PLAYING ∨ data = PlayerState.PAUSED →
  let calls := onPlayerStateChange w now st videoId data in
  let playing := bool_decide (data = PlayerState.PLAYING) in
  (existsb is_relay_call calls = true ↔ master (videos st) = Some videoId) ∧
  head calls = Some (setIsPlaying playing) ∧
  (master (videos st) ≠ Some videoId → calls = [setIsPlaying playing]) ∧
  (master (videos st) = Some videoId →
   calls = setIsPlaying playing
           :: broadcastSyncEvent w now (if playing then "play" else "pause")
                (data_videoId videoId)).
Proof.
  intros Hdata calls playing. subst calls playing.
  rewrite <- isFirstVideo_master. unfold onPlayerStateChange.
  destruct Hdata as [-> | ->]; simpl;
    destruct (isFirstVideo (videos st) videoId) eqn:Hfirst; simpl;
    rewrite ?broadcast_is_relay; repeat split; try done; try congruence.
Qed.

Lemma master_alone_broadcasts_witness :
  let w := {| name := ""; BroadcastChannel := true; YT_Player := true |} in
  let v i := {| id := i; url := i; title := i; startTime := 0;
                windowId := None |} in
  let st := {| videos := [v "aaaaaaaaaaa"; v "bbbbbbbbbbb"];
               readyPlayers := []; playersRef := []; loopEnabled := false |} in
  (PlayerState.PAUSED = PlayerState.PLAYING
   ∨ PlayerState.PAUSED = PlayerState.PAUSED) ∧
  (existsb is_relay_call
     (onPlayerStateChange w 0 st "bbbbbbbbbbb" PlayerState.PAUSED) = true
   ↔ master (videos st) = Some "bbbbbbbbbbb").
Proof.
  intros w v st. split; [by right|].
  apply (master_alone_broadcasts w 0 st "bbbbbbbbbbb" PlayerState.PAUSED).
  by right.
Defined.

(** *** Timers *)

Lemma setTimeout_perm t q : setTimeout t q ≡ₚ t :: q.
Proof.
  induction q as [|t' q IH]; simpl; [done|].
  destruct (Z.leb (due t') (due t)); [|done].
  rewrite IH. apply perm_swap.
Qed.

Lemma arm_perm c armed q : arm c armed q ≡ₚ timers_of c armed ++ q.
Proof.
  unfold arm. revert q.
  induction armed as [|a armed IH]; intros q; simpl; [done|].
  rewrite IH, setTimeout_perm. by rewrite Permutation_middle.
Qed.

Lemma waiting_arm c armed q :
  task <$> arm c armed q ≡ₚ armed.*2 ++ (task <$> q).
Proof.
  rewrite arm_perm, fmap_app. unfold timers_of.
  by rewrite <- list_fmap_compose.
Qed.

Lemma stagger_tasks gap callback es :
  (stagger gap callback es).*2 = (λ e, callback e.1 e.2) <$> es.
Proof. unfold stagger. rewrite fmap_imap. apply imap_const. Qed.

Lemma load_arm c armed q :
  load (arm c armed q) = sum_list_with (λ a, weight a.2) armed + load q.
Proof.
  unfold load. rewrite arm_perm, sum_list_with_app. f_equal.
  unfold timers_of. induction armed as [|a armed IH]; simpl; [done|].
  by f_equal.
Qed.

Lemma stagger_weight gap callback es n :
  (∀ v p, weight (callback v p) = n) →
  sum_list_with (λ a, weight a.2) (stagger gap callback es) = n * length es.
Proof.
  intros Hw.
  assert (∀ l : list (Z * Task),
    sum_list_with (λ a, weight a.2) l = sum_list_with weight l.*2) as ->.
  { intros l. induction l as [|a l IH]; simpl; [done | by rewrite IH]. }
  rewrite stagger_tasks.
  induction es as [|e es IH]; [simpl; lia|].
  rewrite fmap_cons. simpl in *. rewrite IH, Hw. lia.
Qed.

(** A callback arms fewer timers, with all they can arm in turn, than
    its weight. *)
Lemma fire_weight t c :
  (S (sum_list_with (λ a, weight a.2) (fire t c).1.2) ≤ weight t)%nat.
Proof.
  destruct t as [es|v p|v p|es|es|v p|]; simpl.
  - rewrite sum_list_with_app, (stagger_weight _ _ _ 2) by done. simpl. lia.
  - destruct (is_function (playVideo p)); simpl; [|lia].
    assert (∀ z, (S (sum_list_with (λ a, weight a.2)
                      (attempt_in_state v p z c).1.2) ≤ 2)%nat) as Hz.
    { intros z. unfold attempt_in_state.
      destruct (startable z); [destruct (playVideo p); simpl; lia|].
      repeat case_bool_decide; simpl; lia. }
    destruct (getPlayerState p); simpl; [apply Hz | lia | apply Hz].
  - destruct (playVideo p); simpl; lia.
  - destruct (Nat.eqb (playedCount c) 0); simpl; lia.
  - rewrite sum_list_with_app, (stagger_weight _ _ _ 1) by done. simpl. lia.
  - destruct (playVideo p); simpl; lia.
  - lia.
Qed.

(** With fuel for the load of its queue, the loop runs until no timer
    is left. *)
Lemma run_drains fuel l :
  (load (queue l) ≤ fuel)%nat → queue (run fuel l) = [].
Proof.
  revert l. induction fuel as [|fuel IH]; intros l Hload; simpl.
  - destruct (queue l) as [|t q]; [done|].
    unfold load in Hload. simpl in Hload.
    pose proof (fire_weight (task t) (counters l)). lia.
  - unfold tick. destruct (queue l) as [|t q] eqn:Hq; [done|].
    pose proof (fire_weight (task t) (counters l)) as Hw.
    destruct (fire (task t) (counters l)) as [[calls armed] c'].
    apply IH. simpl in *. rewrite load_arm.
    unfold load in Hload. simpl in Hload. unfold load. lia.
Qed.

(** *** What the callbacks of [playAll] arm and count *)

Lemma fire_arms_no_start t c x : x ∈ (fire t c).1.2.*2 → is_start x = false.
Proof.
  destruct t as [es|v p|v p|es|es|v p|]; simpl.
  - rewrite fmap_app, stagger_tasks. simpl.
    intros [Hx|Hx]%elem_of_app.
    + by apply list_elem_of_fmap in Hx as (e & -> & _).
    + by apply list_elem_of_singleton in Hx as ->.
  - assert (∀ z, x ∈ (attempt_in_state v p z c).1.2.*2 → is_start x = false)
      as Hz.
    { intros z. unfold attempt_in_state.
      destruct (startable z); [by destruct (playVideo p); simpl; intros ?%elem_of_nil|].
      repeat case_bool_decide; simpl; try by intros ?%elem_of_nil.
      by intros ->%list_elem_of_singleton. }
    destruct (is_function (playVideo p)); simpl; [|by intros ?%elem_of_nil].
    destruct (getPlayerState p); simpl;
      [apply Hz | by intros ?%elem_of_nil | apply Hz].
  - by destruct (playVideo p); simpl; intros ?%elem_of_nil.
  - destruct (Nat.eqb (playedCount c) 0); simpl.
    + by intros ->%list_elem_of_singleton.
    + by intros ?%elem_of_nil.
  - rewrite fmap_app, stagger_tasks. simpl.
    intros [Hx|Hx]%elem_of_app.
    + by apply list_elem_of_fmap in Hx as (e & -> & _).
    + by apply list_elem_of_singleton in Hx as ->.
  - by destruct (playVideo p); simpl; intros ?%elem_of_nil.
  - by intros ?%elem_of_nil.
Qed.

Lemma filter_none {A} (P : A → Prop) `{∀ x, Decision (P x)} (l : list A) :
  (∀ x, x ∈ l → ¬ P x) → filter P l = [].
Proof.
  induction l as [|a l IH]; intros Hl; [done|].
  rewrite filter_cons_False by (apply Hl; by left).
  apply IH. intros x Hx. apply Hl. by right.
Qed.

Lemma fire_arms_no_attempt t c :
  is_start t = false → filter is_attempt (fire t c).1.2.*2 = [].
Proof.
  intros Hstart. apply filter_none. intros x Hx.
  destruct t as [es|v p|v p|es|es|v p|]; simpl in *; try done.
  - assert (∀ z, x ∈ (attempt_in_state v p z c).1.2.*2 → ¬ is_attempt x)
      as Hz.
    { intros z. unfold attempt_in_state.
      destruct (startable z); [by destruct (playVideo p); simpl; intros ?%elem_of_nil|].
      repeat case_bool_decide; simpl; try by intros ?%elem_of_nil.
      by intros ->%list_elem_of_singleton []. }
    revert Hx.
    destruct (is_function (playVideo p)); simpl; [|by intros ?%elem_of_nil].
    destruct (getPlayerState p); simpl;
      [apply Hz | by intros ?%elem_of_nil | apply Hz].
  - revert Hx. by destruct (playVideo p); simpl; intros ?%elem_of_nil.
  - revert Hx. destruct (Nat.eqb (playedCount c) 0); simpl.
    + by intros ->%list_elem_of_singleton [].
    + by intros ?%elem_of_nil.
  - revert Hx. rewrite fmap_app, stagger_tasks. simpl.
    intros [Hx|Hx]%elem_of_app.
    + apply list_elem_of_fmap in Hx as (e & -> & _). by intros [].
    + apply list_elem_of_singleton in Hx as ->. by intros [].
  - revert Hx. by destruct (playVideo p); simpl; intros ?%elem_of_nil.
  - by apply elem_of_nil in Hx.
Qed.

(** [playedCount] grows by one exactly on the attempts that count. *)
Lemma fire_played t c :
  is_start t = false →
  playedCount (fire t c).2
    = (playedCount c + if counts t then 1 else 0)%nat.
Proof.
  intros Hstart.
  destruct t as [es|v p|v p|es|es|v p|]; simpl in *; try done;
    try (by rewrite Nat.add_0_r);
    try (by destruct (playVideo p); simpl; rewrite Nat.add_0_r).
  assert (∀ z, playedCount (attempt_in_state v p z c).2
    = (playedCount c +
       if (if startable z then bool_decide (playVideo p = returns)
           else bool_decide (z = PlayerState.PLAYING))
       then 1 else 0)%nat
    ∨ playVideo p = absent) as Hz.
  { intros z. unfold attempt_in_state.
    destruct (startable z).
    - destruct (playVideo p); simpl; [by right | left; lia | left; lia].
    - left. repeat case_bool_decide; simpl; lia. }
  destruct (playVideo p) eqn:Hplay; simpl.
  - by rewrite Nat.add_0_r.
  - destruct (getPlayerState p) as [| |z]; simpl.
    + by destruct (Hz (-1)%Z) as [->|?].
    + by rewrite Nat.add_0_r.
    + by destruct (Hz z) as [->|?].
  - destruct (getPlayerState p) as [| |z]; simpl.
    + by destruct (Hz (-1)%Z) as [->|?].
    + by rewrite Nat.add_0_r.
    + by destruct (Hz z) as [->|?].
Qed.

Lemma counts_is_attempt t : counts t = true → is_attempt t = true.
Proof. by destruct t. Qed.


(** The invariant is kept by every timer that fires. *)
Lemma tick_started targets l l' :
  started targets l → tick l = Some l' → started targets l'.
Proof.
  intros [Honce Hatt Hcount Hplayed Hcheck]. unfold tick.
  destruct (queue l) as [|t q] eqn:Hq; [done|].
  unfold waiting in Honce, Hatt, Hcount, Hcheck.
  rewrite Hq, fmap_cons in Honce, Hatt, Hcount, Hcheck.
  assert (is_start (task t) = false) as Hstart by (apply Honce; by left).
  pose proof (fire_arms_no_start (task t) (counters l)) as Hns.
  pose proof (fire_arms_no_attempt (task t) (counters l) Hstart) as Hna.
  pose proof (fire_played (task t) (counters l) Hstart) as Hp.
  assert (task t = check_results targets →
          (fire (task t) (counters l)).1.1
            = [log_played (playedCount (counters l))])
    as Hlog by (by intros ->).
  destruct (fire (task t) (counters l)) as [[calls armed] c'].
  cbn [fst snd] in Hns, Hna, Hp, Hlog. intros [= <-].
  set (l' := {| clock := due t; queue := arm (due t) armed q;
                counters := c'; history := history l ++ [(task t, calls)] |}).
  assert (fired l' = fired l ++ [task t]) as Hfired.
  { unfold fired. subst l'. cbn [history]. by rewrite fmap_app. }
  assert (calls_of l' = calls_of l ++ calls) as Hcalls.
  { unfold calls_of. subst l'. cbn [history].
    rewrite fmap_app, concat_app. cbn. by rewrite app_nil_r. }
  assert (waiting l' ≡ₚ armed.*2 ++ (task <$> q)) as Hwaiting.
  { unfold waiting. subst l'. cbn [queue]. apply waiting_arm. }
  assert (counters l' = c') as Hcounters by done.
  clearbody l'.
  split; rewrite ?Hfired, ?Hcounters.
  - intros x. rewrite Hwaiting. intros [Hx|Hx]%elem_of_app.
    + by apply Hns.
    + apply Honce. by right.
  - intros e He. specialize (Hatt e He). rewrite Hwaiting.
    rewrite !elem_of_app, list_elem_of_singleton.
    apply elem_of_app in Hatt as [[Heq|Hin]%elem_of_cons|Hin].
    + right. by right.
    + left. by right.
    + right. by left.
  - rewrite Hwaiting, <- Hcount.
    rewrite !filter_app, !length_app, Hna.
    rewrite (filter_cons _ (task t) (task <$> q)).
    rewrite (filter_cons _ (task t) []), filter_nil.
    destruct (decide (is_attempt (task t))); cbn [length app]; lia.
  - rewrite Hp, Hplayed, filter_app, length_app.
    rewrite (filter_cons _ (task t) []), filter_nil.
    destruct (decide (counts (task t))) as [Hc|Hc];
      destruct (counts (task t)); cbn in *; try tauto; lia.
  - destruct Hcheck as [Hin|(before & after & Hf & Hl)].
    + apply elem_of_cons in Hin as [Heq|Hin].
      * right. exists (fired l), []. split; [by rewrite Hfired, Heq|].
        rewrite Hcalls, (Hlog (eq_sym Heq)), Hplayed.
        apply elem_of_app. right. by left.
      * left. rewrite Hwaiting. apply elem_of_app. by right.
    + right. exists before, (after ++ [task t]). split.
      * rewrite Hfired, Hf. by rewrite <- app_assoc.
      * rewrite Hcalls. apply elem_of_app. by left.
Qed.


(** The first timer of [playAll]: it arms one attempt for each target
    and the check of the results. *)
Lemma start_players_started clock d targets c :
  ∃ l1,
    tick {| clock := clock;
            queue := [{| due := d; task := start_players targets |}];
            counters := c; history := [] |} = Some l1 ∧
    started targets l1 ∧
    load (queue l1) = (3 + 3 * length targets)%nat.
Proof.
  eexists. split; [reflexivity|].
  set (armed := stagger 200%Z attempt targets
                ++ [((Z.of_nat (length targets) * 100 + 1000)%Z,
                     check_results targets)]).
  assert (armed.*2 = ((λ e, attempt e.1 e.2) <$> targets)
                     ++ [check_results targets]) as Harmed.
  { subst armed. by rewrite fmap_app, stagger_tasks. }
  assert (∀ l : list (string * Player),
            filter is_attempt ((λ e, attempt e.1 e.2) <$> l)
            = (λ e, attempt e.1 e.2) <$> l) as Hfilter.
  { intros l. induction l as [|e l IH]; [done|].
    rewrite fmap_cons, filter_cons_True by done. by rewrite IH. }
  split; [split|]; unfold waiting, fired; cbn [queue history counters].
  - intros t. rewrite waiting_arm, Harmed, fmap_nil, app_nil_r.
    intros [Ht|Ht]%elem_of_app.
    + by apply list_elem_of_fmap in Ht as (e & -> & _).
    + by apply list_elem_of_singleton in Ht as ->.
  - intros e He. rewrite waiting_arm, Harmed.
    apply elem_of_app. left. apply elem_of_app. left. apply elem_of_app. left.
    apply list_elem_of_fmap. by exists e.
  - rewrite waiting_arm, Harmed. cbn [fmap list_fmap].
    rewrite !filter_app, Hfilter, !length_app, length_fmap. simpl. lia.
  - done.
  - left. rewrite waiting_arm, Harmed.
    apply elem_of_app. left. apply elem_of_app. right. by left.
  - rewrite load_arm. subst armed.
    rewrite sum_list_with_app, (stagger_weight _ _ _ 2) by done.
    unfold load. simpl. lia.
Qed.


(** *** The calls of one press *)

(** What one firing changes. *)
Lemma tick_Some l l' :
  tick l = Some l' →
  ∃ t rest,
    queue l = t :: rest ∧
    queue l' = arm (due t) (fire (task t) (counters l)).1.2 rest ∧
    fired l' = fired l ++ [task t] ∧
    calls_of l' = calls_of l ++ (fire (task t) (counters l)).1.1.
Proof.
  unfold tick. destruct (queue l) as [|t rest]; [done|].
  destruct (fire (task t) (counters l)) as [[calls armed] c'] eqn:Hfire.
  intros [= <-]. exists t, rest. rewrite Hfire. unfold fired, calls_of. cbn.
  rewrite !fmap_app, concat_app. cbn. by rewrite app_nil_r.
Qed.

Lemma tick_history l l' :
  tick l = Some l' →
  ∃ t rest,
    queue l = t :: rest ∧
    history l'
    = history l ++ [(task t, (fire (task t) (counters l)).1.1)].
Proof.
  unfold tick. destruct (queue l) as [|t rest]; [done|].
  destruct (fire (task t) (counters l)) as [[calls armed] c'] eqn:Hfire.
  intros [= <-]. exists t, rest. by rewrite ?Hfire.
Qed.


(** A callback arms timers for its own entries only. *)
Lemma fire_entries t c x e :
  x ∈ (fire t c).1.2.*2 → e ∈ entries_of x → e ∈ entries_of t.
Proof.
  destruct t as [es|v p|v p|es|es|v p|]; simpl.
  - rewrite fmap_app, stagger_tasks. simpl.
    intros [Hx|Hx]%elem_of_app.
    + apply list_elem_of_fmap in Hx as ([v p] & -> & Hin). cbn.
      by intros ->%list_elem_of_singleton.
    + by apply list_elem_of_singleton in Hx as ->.
  - assert (∀ z, x ∈ (attempt_in_state v p z c).1.2.*2 →
                 e ∈ entries_of x → e ∈ [(v, p)]) as Hz.
    { intros z. unfold attempt_in_state.
      destruct (startable z).
      - destruct (playVideo p); simpl; by intros ?%elem_of_nil.
      - repeat case_bool_decide; simpl;
          try (by intros ?%elem_of_nil).
        by intros ->%list_elem_of_singleton. }
    destruct (is_function (playVideo p)); simpl; [|by intros ?%elem_of_nil].
    destruct (getPlayerState p); simpl;
      [apply Hz | by intros ?%elem_of_nil | apply Hz].
  - by destruct (playVideo p); simpl; intros ?%elem_of_nil.
  - destruct (Nat.eqb (playedCount c) 0); simpl.
    + by intros ->%list_elem_of_singleton.
    + by intros ?%elem_of_nil.
  - rewrite fmap_app, stagger_tasks. simpl.
    intros [Hx|Hx]%elem_of_app.
    + apply list_elem_of_fmap in Hx as ([v p] & -> & Hin). cbn.
      by intros ->%list_elem_of_singleton.
    + apply list_elem_of_singleton in Hx as ->. by intros ?%elem_of_nil.
  - by destruct (playVideo p); simpl; intros ?%elem_of_nil.
  - by intros ?%elem_of_nil.
Qed.

(** A callback calls [playVideo] on its own entry only, and only when
    the method is there. *)
Lemma fire_playVideo t c v :
  player_playVideo v ∈ (fire t c).1.1 →
  ∃ p, (v, p) ∈ entries_of t ∧ playVideo p ≠ absent.
Proof.
  destruct t as [es|v0 p|v0 p|es|es|v0 p|]; simpl.
  - by intros ?%elem_of_nil.
  - assert (∀ z, player_playVideo v ∈ (attempt_in_state v0 p z c).1.1 →
                 v = v0) as Hz.
    { intros z. unfold attempt_in_state.
      destruct (startable z).
      - destruct (playVideo p); simpl;
          intros [?|[[= ->]|?%elem_of_nil]%elem_of_cons]%elem_of_cons; done.
      - repeat case_bool_decide; simpl;
          try (by intros ?%elem_of_nil).
        by intros [?|?%elem_of_nil]%elem_of_cons. }
    destruct (is_function (playVideo p)) eqn:Hf; simpl;
      [|by intros ?%elem_of_nil].
    assert (playVideo p ≠ absent) as Hm by (by destruct (playVideo p)).
    destruct (getPlayerState p); simpl; intros Hin;
      [apply Hz in Hin as -> | by apply elem_of_nil in Hin
       | apply Hz in Hin as ->];
      exists p; (split; [by left | done]).
  - destruct (playVideo p) eqn:Hm; simpl; [by intros ?%elem_of_nil| |].
    + intros [[= ->]|[?|?%elem_of_nil]%elem_of_cons]%elem_of_cons; [|done..].
      exists p. split; [by left | by rewrite Hm].
    + intros [[= ->]|?%elem_of_nil]%elem_of_cons; [|done].
      exists p. split; [by left | by rewrite Hm].
  - by intros [?|?%elem_of_nil]%elem_of_cons.
  - by intros ?%elem_of_nil.
  - destruct (playVideo p) eqn:Hm; simpl; [by intros ?%elem_of_nil| |];
      (intros [[= ->]|?%elem_of_nil]%elem_of_cons; [|done]);
      exists p; (split; [by left | by rewrite Hm]).
  - destruct (Nat.eqb (retryCount c) 0); simpl; [|by intros ?%elem_of_nil].
    by intros [?|?%elem_of_nil]%elem_of_cons.
Qed.

Lemma tick_traced targets l l' :
  traced targets l → tick l = Some l' → traced targets l'.
Proof.
  intros [Hwait Hplay Hhist] Htick.
  destruct (tick_Some _ _ Htick) as (t & rest & Hq & Hq' & Hfired & Hcalls).
  destruct (tick_history _ _ Htick) as (t0 & rest0 & Hq0 & Hh).
  rewrite Hq in Hq0. injection Hq0 as <- <-.
  assert (waiting l'
          ≡ₚ (fire (task t) (counters l)).1.2.*2 ++ (task <$> rest))
    as Hwaiting.
  { unfold waiting. rewrite Hq'. apply waiting_arm. }
  assert (waiting l = task t :: (task <$> rest)) as Hwl.
  { unfold waiting. by rewrite Hq. }
  split.
  - intros x e. rewrite Hwaiting. intros [Hx|Hx]%elem_of_app He.
    + apply (Hwait (task t)); [rewrite Hwl; by left|].
      by eapply fire_entries.
    + apply (Hwait x); [rewrite Hwl; by right | done].
  - intros v. rewrite Hcalls. intros [Hv|Hv]%elem_of_app; [by apply Hplay|].
    apply fire_playVideo in Hv as (p & Hin & Hp). exists p. split; [|done].
    apply (Hwait (task t)); [rewrite Hwl; by left | done].
  - intros x calls. rewrite Hh. intros [Hx|Hx]%elem_of_app.
    + destruct (Hhist _ _ Hx) as (c & Hc & Harmed). exists c.
      split; [done|]. intros y Hy. specialize (Harmed y Hy).
      rewrite Hwl in Harmed. rewrite Hfired, Hwaiting.
      apply elem_of_app in Harmed as [[->|Hy']%elem_of_cons|Hy'].
      * apply elem_of_app. right. apply elem_of_app. right. by left.
      * apply elem_of_app. left. apply elem_of_app. by right.
      * apply elem_of_app. right. apply elem_of_app. by left.
    + apply list_elem_of_singleton in Hx as [= -> ->].
      exists (counters l). split; [done|]. intros y Hy.
      rewrite Hwaiting. apply elem_of_app. left. apply elem_of_app. by left.
Qed.

Lemma run_traced targets fuel l :
  traced targets l → traced targets (run fuel l).
Proof.
  revert l. induction fuel as [|fuel IH]; intros l Hl; simpl; [done|].
  destruct (tick l) as [l'|] eqn:Htick; [|done].
  apply IH. by eapply tick_traced.
Qed.

Lemma traced_start now d targets c :
  traced targets
    {| clock := now;
       queue := [{| due := d; task := start_players targets |}];
       counters := c; history := [] |}.
Proof.
  split.
  - intros t e. unfold waiting. cbn [queue]. rewrite fmap_cons, fmap_nil.
    by intros ->%list_elem_of_singleton.
  - intros v. unfold calls_of. cbn. by intros ?%elem_of_nil.
  - intros t calls. cbn. by intros ?%elem_of_nil.
Qed.


Lemma elem_of_non_null v p (entries : list (string * option Player)) :
  (v, p) ∈ non_null entries ↔ (v, Some p) ∈ entries.
Proof.
  unfold non_null. rewrite list_elem_of_omap. split.
  - intros ([v0 [p0|]] & Hin & Heq); cbn in Heq; [|done].
    by injection Heq as -> ->.
  - intros Hin. by exists (v, Some p).
Qed.

Lemma elem_of_ready_entries st v p :
  (v, p) ∈ ready_entries st ↔ v ∈ readyPlayers st ∧ player_of st v = Some p.
Proof.
  unfold ready_entries. rewrite elem_of_non_null.
  change (map ?f ?l) with (f <$> l). rewrite list_elem_of_fmap. split.
  - intros (v0 & [= -> Hp] & Hin). by rewrite Hp.
  - intros [Hin Hp]. exists v. by rewrite Hp.
Qed.

Lemma playAll_cases w now st :
  (∃ message, playAll w now st = ([alert message], [])) ∨
  (∃ targets,
     playAll w now st
       = (setIsPlaying true :: broadcastSyncEvent w now "play" no_data,
          [(500%Z, start_players targets)]) ∧
     targets ≠ [] ∧
     (targets = ready_entries st ∨ targets = available_entries st
      ∨ targets = functional_entries st)).
Proof.
  unfold playAll.
  destruct (negb (YT_Player w)); [left; by eexists|].
  destruct (Nat.eqb (length (videos st)) 0); [left; by eexists|].
  destruct (Nat.eqb (length (readyPlayers st)) 0
            && negb (Nat.ltb 0 (length (JsMap.keys (playersRef st)))));
    [left; by eexists|].
  cbn zeta.
  set (first := if Nat.ltb 0 (length (readyPlayers st))
                then ready_entries st else available_entries st).
  assert (first = ready_entries st ∨ first = available_entries st) as Hfirst.
  { subst first. destruct (Nat.ltb 0 (length (readyPlayers st))); eauto. }
  clearbody first.
  set (targets := if Nat.eqb (length first) 0
                  then functional_entries st else first).
  assert (targets = ready_entries st ∨ targets = available_entries st
          ∨ targets = functional_entries st) as Htargets.
  { subst targets. destruct (Nat.eqb (length first) 0); [eauto|].
    destruct Hfirst; eauto. }
  clearbody targets.
  destruct targets as [|e es]; [left; by eexists|].
  right. by eexists.
Qed.

(** Whatever one press of the button calls [playVideo] on has the
    method, and is either marked ready and found by the lookup in the
    registry, or registered. *)
Lemma press_playVideo w now st v :
  player_playVideo v ∈ (press w now st).1 ++ calls_of (press w now st).2 →
  ∃ p, playVideo p ≠ absent ∧
       ((v ∈ readyPlayers st ∧ player_of st v = Some p)
        ∨ (v, Some p) ∈ playersRef st).
Proof.
  unfold press.
  destruct (playAll_cases w now st)
    as [[message ->]|(targets & -> & _ & Htargets)].
  - cbn. by intros [?|?%elem_of_nil]%elem_of_cons.
  - cbn [fst snd arm foldl setTimeout].
    pose proof (run_traced targets
                  (load [{| due := (now + 500)%Z;
                            task := start_players targets |}]) _
                  (traced_start now (now + 500)%Z targets
                     {| playedCount := 0; retryCount := 0 |})) as Htraced.
    intros [Hv|Hv]%elem_of_app.
    + apply elem_of_cons in Hv as [?|Hv]; [done|].
      unfold broadcastSyncEvent in Hv.
      apply elem_of_app in Hv as [Hv|[?|?%elem_of_nil]%elem_of_cons];
        [|done..].
      destruct (BroadcastChannel w); [|by apply elem_of_nil in Hv].
      by apply elem_of_cons in Hv as [?|?%elem_of_nil].
    + apply (traced_playVideo _ _ Htraced) in Hv as (p & Hin & Hp).
      exists p. split; [done|].
      destruct Htargets as [->|[->| ->]].
      * left. by apply elem_of_ready_entries.
      * right. by apply elem_of_non_null.
      * right. unfold functional_entries in Hin.
        apply list_elem_of_filter in Hin as [_ Hin].
        by apply elem_of_non_null.
Qed.




(** The first clip added stays the master while clips are added. *)
Lemma addVideo_master videoId newVideoUrl title st :
  master (videos (addVideo videoId newVideoUrl title st))
  = match master (videos st) with
    | Some first => Some first
    | None => Some videoId
    end.
Proof. unfold master, addVideo. simpl. by destruct (videos st). Qed.

(** The scenario of three clips of which only the second has signalled
    that it is ready: [playAll] attempts that one alone and logs one
    surface started. *)
Example scenario_three_surfaces :
  let w := {| name := ""; BroadcastChannel := true; YT_Player := true |} in
  let player := {| playVideo := returns; pauseVideo := returns;
                   seekTo := returns;
                   getPlayerState := state_returns PlayerState.CUED;
                   destroy := returns |} in
  let st0 := {| videos := []; readyPlayers := []; playersRef := [];
                loopEnabled := false |} in
  let st3 := addVideo "ccccccccccc" "https://youtu.be/ccccccccccc" "Video 3"
               (addVideo "bbbbbbbbbbb" "https://youtu.be/bbbbbbbbbbb" "Video 2"
                  (addVideo "aaaaaaaaaaa" "https://youtu.be/aaaaaaaaaaa"
                     "Video 1" st0)) in
  let st := (onPlayerReady "bbbbbbbbbbb" player st3).1 in
  let l := (press w 0 st).2 in
  filter is_attempt (fired l) = [attempt "bbbbbbbbbbb" player] ∧
  calls_of l = [setPlayingVideos_add "bbbbbbbbbbb";
                player_playVideo "bbbbbbbbbbb";
                log_played 1] ∧
  queue l = [].
Proof. by vm_compute. Qed.

End Aggregator_facts.

(** * Further properties *)

(** ** Keys of insertion-ordered maps *)

Section JsMap_keys.
Context {K V : Type} `{EqDecision K}.
Implicit Types (k : K) (v : V) (m : list (K * V)).

Lemma elem_get_is_Some k v m : (k, v) ∈ m → is_Some (JsMap.get k m).
Proof.
  induction m as [|[k' v'] m IH]; simpl; [by intros ?%elem_of_nil|].
  destruct (decide (k = k')); [by eauto|].
  intros [[= ? ?]|Hin]%elem_of_cons; [done | by apply IH].
Qed.

Lemma get_None_not_key k m : JsMap.get k m = None → k ∉ JsMap.keys m.
Proof.
  unfold JsMap.keys. intros Hg Hin.
  apply list_elem_of_fmap in Hin as ([k' v] & Heq & Hin).
  cbn [fst] in Heq. subst k'.
  apply elem_get_is_Some in Hin. rewrite Hg in Hin. by destruct Hin.
Qed.

Lemma keys_set k v m :
  JsMap.keys (JsMap.set k v m)
  = if JsMap.has k m then JsMap.keys m else JsMap.keys m ++ [k].
Proof.
  destruct (JsMap.get k m) as [v0|] eqn:Hg.
  - rewrite keys_set_present by (by rewrite Hg).
    unfold JsMap.has. by rewrite Hg.
  - rewrite set_fresh by done. unfold JsMap.has, JsMap.keys.
    by rewrite Hg, fmap_app.
Qed.

Lemma NoDup_keys_set k v m :
  NoDup (JsMap.keys m) → NoDup (JsMap.keys (JsMap.set k v m)).
Proof.
  intros Hm. rewrite keys_set. destruct (JsMap.has k m) eqn:Hhas; [done|].
  apply NoDup_app. split; [done|]. split; [|apply NoDup_singleton].
  intros x Hx Hk. apply list_elem_of_singleton in Hk. subst x. revert Hx.
  apply get_None_not_key. unfold JsMap.has in Hhas.
  by destruct (JsMap.get k m).
Qed.

Lemma keys_delete k m :
  JsMap.keys (JsMap.delete k m) = filter (λ k', k' ≠ k) (JsMap.keys m).
Proof.
  unfold JsMap.keys, JsMap.delete.
  induction m as [|[k' v'] m IH]; [done|].
  rewrite fmap_cons, !filter_cons. cbn [fst].
  destruct (decide (k' ≠ k)); [rewrite fmap_cons|]; by rewrite IH.
Qed.

Lemma NoDup_keys_delete k m :
  NoDup (JsMap.keys m) → NoDup (JsMap.keys (JsMap.delete k m)).
Proof. intros Hm. rewrite keys_delete. by apply NoDup_filter. Qed.

Lemma elem_of_set_ne k k' v v' m :
  k' ≠ k → (k', v') ∈ m → (k', v') ∈ JsMap.set k v m.
Proof.
  intros Hne. induction m as [|[k0 v0] m IH]; simpl; [by intros ?%elem_of_nil|].
  intros [[= <- <-]|Hin]%elem_of_cons.
  - rewrite decide_False by congruence. by left.
  - destruct (decide (k = k0)); right; [done | by apply IH].
Qed.

Lemma elem_of_delete_ne k k' v' m :
  k' ≠ k → (k', v') ∈ m → (k', v') ∈ JsMap.delete k m.
Proof.
  intros Hne Hin. unfold JsMap.delete. by apply list_elem_of_filter.
Qed.

Lemma NoDup_keys_get k v m :
  NoDup (JsMap.keys m) → (k, v) ∈ m → JsMap.get k m = Some v.
Proof.
  unfold JsMap.keys. induction m as [|[k' v'] m IH]; [by intros _ ?%elem_of_nil|].
  rewrite fmap_cons. cbn [fst JsMap.get].
  intros [Hk Hm]%NoDup_cons [[= -> ->]|Hin]%elem_of_cons.
  - by rewrite decide_True.
  - rewrite decide_False; [by apply IH|].
    intros ->. apply Hk. apply list_elem_of_fmap. by exists (k', v).
Qed.
End JsMap_keys.

(** ** The session gateway, further *)

Section Gateway_more.
Import Gateway.
Implicit Types (st : Server) (s p roomId : string) (room : Room).

Lemma on_join_room_found s roomId userName uuid st room :
  JsMap.get roomId (rooms st) = Some room →
  on_join_room s roomId userName uuid st =
    let user := {| user_id := uuid; user_name := userName;
                   isHost := Nat.eqb (JsMap.size (users room)) 0;
                   socketId := s |} in
    let room' := with_users (JsMap.set s user (users room)) room in
    let st' := socket_join s roomId
                 (with_rooms (JsMap.set roomId room' (rooms st)) st) in
    (st', [ socket_emit s
              (room_joined (room_view room') user (JsMap.values (users room')));
            socket_to_emit s roomId st'
              (user_joined user (JsMap.values (users room'))) ]).
Proof.
  intros Hg. unfold on_join_room.
  assert (JsMap.has roomId (rooms st) = true) as ->.
  { apply has_get. by rewrite Hg. }
  by rewrite Hg.
Qed.

(** X1: in a reachable state a [join-room] for an existing room never
    makes a host: no room is empty, so [isHost] is [false].  The joiner
    is written under its socket id, gets [room-joined] with the room's
    playback state and the new list of participants, and [user-joined]
    goes to the sockets joined before, never to the joiner. *)
Theorem join_makes_guest st s roomId userName uuid room :
  reachable st →
  JsMap.get roomId (rooms st) = Some room →
  let user := {| user_id := uuid; user_name := userName;
                 isHost := false; socketId := s |} in
  let us := JsMap.set s user (users room) in
  ∃ st' e,
    on_join_room s roomId userName uuid st
      = (st', [socket_emit s (room_joined (room_view room) user (JsMap.values us));
               e]) ∧
    JsMap.get roomId (rooms st') = Some (with_users us room) ∧
    JsMap.get s us = Some user ∧
    payload e = user_joined user (JsMap.values us) ∧
    recipients e = members roomId st ∖ {[s]}.
Proof.
  intros Hreach Hg user us.
  destruct (reachable_at_most_one_host _ Hreach _ _ (get_Some_elem _ _ _ Hg))
    as [Hne _].
  assert (Nat.eqb (JsMap.size (users room)) 0 = false) as Hsize.
  { by destruct (users room). }
  rewrite (on_join_room_found _ _ _ _ _ _ Hg), Hsize. cbn zeta.
  eexists _, _. split; [reflexivity|].
  split; [by cbn; rewrite get_set_eq|].
  split; [by apply get_set_eq|]. split; [done|].
  cbn [recipients socket_to_emit].
  rewrite members_socket_join_eq, members_with_rooms.
  apply set_eq. intros x.
  rewrite !elem_of_difference, elem_of_union, elem_of_singleton. tauto.
Qed.

Lemma join_makes_guest_witness :
  let st := run [Connection "a";
                 CreateRoom "a" "R1" "Alice" (Some "M") "r1" "u1" 0;
                 Connection "b"] init in
  reachable st ∧
  ∃ room, JsMap.get "r1" (rooms st) = Some room ∧
  ∃ st', JsMap.get "r1" (rooms st')
         = Some (with_users
                   (JsMap.set "b" {| user_id := "u2"; user_name := "Bob";
                                     isHost := false; socketId := "b" |}
                      (users room)) room).
Proof.
  intros st.
  assert (reachable st) as Hreach.
  { apply reachable_run; [apply reachable_init | by vm_compute]. }
  split; [done|]. eexists. split; [reflexivity|].
  destruct (join_makes_guest st "b" "r1" "Bob" "u2" _ Hreach eq_refl)
    as (st' & e & _ & Hroom & _).
  exists st'. exact Hroom.
Defined.

(** X2: a room just created can be joined: whatever the state before, a
    [join-room] from another socket for the id [create-room] drew is
    answered with the fresh snapshot (not playing, position 0) and the
    participants host then guest; the host is among the sockets
    notified. *)
Theorem create_then_join st s roomName hostName url roomId uuid now
    s' userName uuid' :
  s' ≠ s →
  let st1 := (on_create_room s roomName hostName url roomId uuid now st).1 in
  let host := {| user_id := uuid; user_name := hostName;
                 isHost := true; socketId := s |} in
  let guest := {| user_id := uuid'; user_name := userName;
                  isHost := false; socketId := s' |} in
  ∃ e,
    (on_join_room s' roomId userName uuid' st1).2
      = [socket_emit s'
           (room_joined
              {| view_id := roomId; view_name := roomName;
                 view_videoUrl := default "" url;
                 view_isPlaying := false; view_currentTime := 0 |}
              guest [host; guest]);
         e] ∧
    payload e = user_joined guest [host; guest] ∧
    s ∈ recipients e ∧ s' ∉ recipients e.
Proof.
  intros Hne st1 host guest.
  set (room := {| room_id := roomId; room_name := roomName;
                  videoUrl := default "" url; isPlaying := false;
                  currentTime := 0; users := [(s, host)];
                  createdAt := now |}).
  assert (JsMap.get roomId (rooms st1) = Some room) as Hg.
  { subst st1. unfold on_create_room. cbn. by rewrite get_set_eq. }
  rewrite (on_join_room_found _ _ _ _ _ _ Hg). cbn zeta.
  cbn [snd users room JsMap.size length Nat.eqb JsMap.set].
  rewrite decide_False by done.
  eexists. split; [reflexivity|]. split; [done|].
  cbn [recipients socket_to_emit].
  rewrite members_socket_join_eq, members_with_rooms.
  subst st1. unfold on_create_room. cbn [fst].
  rewrite members_socket_join_eq.
  rewrite !elem_of_difference, !elem_of_union, !elem_of_singleton.
  split; [split; [tauto | congruence] | tauto].
Qed.

Lemma create_then_join_witness :
  "b" ≠ "a" ∧
  ∃ e, (on_join_room "b" "r1" "Bob" "u2"
          (on_create_room "a" "R1" "Alice" None "r1" "u1" 0 init).1).2
       = [socket_emit "b"
            (room_joined
               {| view_id := "r1"; view_name := "R1"; view_videoUrl := "";
                  view_isPlaying := false; view_currentTime := 0 |}
               {| user_id := "u2"; user_name := "Bob";
                  isHost := false; socketId := "b" |}
               [{| user_id := "u1"; user_name := "Alice";
                   isHost := true; socketId := "a" |};
                {| user_id := "u2"; user_name := "Bob";
                   isHost := false; socketId := "b" |}]);
          e].
Proof.
  assert ("b" ≠ "a") as Hne by done.
  split; [exact Hne|].
  destruct (create_then_join init "a" "R1" "Alice" None "r1" "u1" 0
              "b" "Bob" "u2" Hne) as (e & He & _).
  exists e. exact He.
Defined.

(** The room a command leaves behind. *)
Lemma command_room s roomId c st room :
  JsMap.get roomId (rooms st) = Some room →
  (step (command_input s roomId c) st).1
  = with_rooms
      (JsMap.set roomId
         match c with
         | cmd_play t => with_playback true t room
         | cmd_pause t => with_playback false t room
         | cmd_seek t => with_currentTime t room
         | cmd_change_video url => with_video url room
         end (rooms st)) st.
Proof.
  intros Hg. destruct c; simpl;
    unfold on_play, on_pause, on_seek, on_change_video; by rewrite Hg.
Qed.

(** X3: whoever joins after a command is told the state the command
    left: playing at [t] after [play], paused at [t] after [pause], the
    same flag at [t] after [seek], and the new video, paused at 0, after
    [change-video]. *)
Theorem joiner_sees_last_command st s roomId room c s' userName uuid :
  JsMap.get roomId (rooms st) = Some room →
  let st1 := (step (command_input s roomId c) st).1 in
  ∃ user participants e,
    (on_join_room s' roomId userName uuid st1).2
      = [socket_emit s'
           (room_joined
              {| view_id := room_id room;
                 view_name := room_name room;
                 view_videoUrl :=
                   match c with
                   | cmd_change_video url => url
                   | _ => videoUrl room
                   end;
                 view_isPlaying :=
                   match c with
                   | cmd_play _ => true
                   | cmd_seek _ => isPlaying room
                   | _ => false
                   end;
                 view_currentTime :=
                   match c with
                   | cmd_play t | cmd_pause t | cmd_seek t => t
                   | cmd_change_video _ => 0
                   end |}
              user participants);
         e].
Proof.
  intros Hg st1. subst st1. rewrite (command_room _ _ _ _ _ Hg).
  erewrite on_join_room_found by (cbn; apply get_set_eq).
  cbn zeta. cbn [snd].
  destruct c; eexists _, _, _; reflexivity.
Qed.

Lemma joiner_sees_last_command_witness :
  let st := run [Connection "a";
                 CreateRoom "a" "R1" "Alice" (Some "M") "r1" "u1" 0] init in
  ∃ room, JsMap.get "r1" (rooms st) = Some room ∧
  ∃ user participants e,
    (on_join_room "b" "r1" "Bob" "u2"
       (step (command_input "a" "r1" (cmd_play 42)) st).1).2
      = [socket_emit "b"
           (room_joined
              {| view_id := "r1"; view_name := "R1"; view_videoUrl := "M";
                 view_isPlaying := true; view_currentTime := 42 |}
              user participants);
         e].
Proof.
  intros st. eexists. split; [reflexivity|].
  exact (joiner_sees_last_command st "a" "r1" _ (cmd_play 42)
           "b" "Bob" "u2" eq_refl).
Defined.

(** X4: a playback command on an existing room touches that room's
    playback fields and nothing else: its participants, name, id and
    creation time stay, [play] and [pause] keep the video, and every
    other room, the order of the rooms and the socket.io state are as
    before. *)
Theorem command_frame s roomId c st room :
  JsMap.get roomId (rooms st) = Some room →
  let st' := (step (command_input s roomId c) st).1 in
  (∃ room', JsMap.get roomId (rooms st') = Some room' ∧
     users room' = users room ∧
     room_name room' = room_name room ∧
     room_id room' = room_id room ∧
     createdAt room' = createdAt room ∧
     (is_change_video c = false → videoUrl room' = videoUrl room)) ∧
  (∀ r, r ≠ roomId → JsMap.get r (rooms st') = JsMap.get r (rooms st)) ∧
  JsMap.keys (rooms st') = JsMap.keys (rooms st) ∧
  sockets st' = sockets st ∧ adapter st' = adapter st.
Proof.
  intros Hg st'. subst st'. rewrite (command_room _ _ _ _ _ Hg). cbn.
  split; [|split; [|split]].
  - eexists. split; [apply get_set_eq|]. by destruct c.
  - intros r Hr. by apply get_set_ne.
  - apply keys_set_present. by rewrite Hg.
  - done.
Qed.

Lemma command_frame_witness :
  let st := run [Connection "a";
                 CreateRoom "a" "R1" "Alice" (Some "M") "r1" "u1" 0;
                 Connection "b"; JoinRoom "b" "r1" "Bob" "u2"] init in
  ∃ room, JsMap.get "r1" (rooms st) = Some room ∧
  ∃ room', JsMap.get "r1"
             (rooms (step (command_input "b" "r1" (cmd_change_video "N")) st).1)
           = Some room' ∧
           users room' = users room.
Proof.
  intros st. eexists. split; [reflexivity|].
  destruct (command_frame "b" "r1" (cmd_change_video "N") st _ eq_refl)
    as [(room' & Hg & Hus & _) _].
  exists room'. split; [exact Hg | exact Hus].
Defined.

Lemma own_room_step i st : own_room st → own_room (step i st).1.
Proof.
  intros Hinv.
  assert (∀ s r rs, own_room (socket_join s r (with_rooms rs st))) as Hjoin.
  { intros s r rs p Hp. apply members_socket_join_mono.
    rewrite members_with_rooms. by apply Hinv. }
  destruct i; simpl.
  - intros p. unfold on_connection. cbn [fst].
    change (sockets (socket_join s s _)) with (sockets st ∪ {[s]}).
    intros [Hp | ->%elem_of_singleton]%elem_of_union.
    + apply members_socket_join_mono. by apply (Hinv p).
    + rewrite members_socket_join_eq.
      by apply elem_of_union_l, elem_of_singleton.
  - unfold on_join_room.
    destruct (JsMap.has roomId (rooms st)); [|done]. simpl.
    destruct (JsMap.get roomId (rooms st)); [|done]. apply Hjoin.
  - apply Hjoin.
  - unfold on_play.
    by destruct (JsMap.get roomId (rooms st)).
  - unfold on_pause.
    by destruct (JsMap.get roomId (rooms st)).
  - unfold on_seek.
    by destruct (JsMap.get roomId (rooms st)).
  - unfold on_change_video.
    by destruct (JsMap.get roomId (rooms st)).
  - done.
  - assert (own_room (socket_close s st)) as Hclosed.
    { intros p. rewrite members_socket_close. cbn.
      rewrite !elem_of_difference. intros [Hp Hne].
      split; [by apply Hinv | done]. }
    unfold on_disconnect, disconnect_listener.
    destruct (find_room s (rooms (socket_close s st))) as [[r rm]|]; [|done].
    destruct (JsMap.get s (users rm)); [|done].
    by match goal with |- context [Nat.eqb ?n 0] => destruct (Nat.eqb n 0) end.
Qed.

Lemma reachable_own_room st : reachable st → own_room st.
Proof.
  induction 1 as [|i st _ IH Hadm].
  - by intros s ?%elem_of_empty.
  - by apply own_room_step.
Qed.

(** X5: [send-message] changes nothing on the server and emits one
    [new-message] to the sockets joined to the socket.io room of the
    name it is given, whether or not [rooms] holds a room of that id
    and whether or not the sender is in it.  In a reachable state every
    participant of the room whose connection is open receives it, the
    sender included; and since the name is not checked, a message sent
    to the id of an open connection reaches that connection, whose own
    room it names. *)
Theorem send_message_reaches_room st s roomId message userName uuid now :
  reachable st →
  ∃ e,
    on_send_message s roomId message userName uuid now st = (st, [e]) ∧
    payload e = new_message uuid userName message now ∧
    recipients e = members roomId st ∧
    (∀ room p,
       JsMap.get roomId (rooms st) = Some room →
       is_Some (JsMap.get p (users room)) →
       p ∈ sockets st → p ∈ recipients e) ∧
    (roomId ∈ sockets st → roomId ∈ recipients e).
Proof.
  intros Hreach. eexists. split; [reflexivity|]. split; [done|].
  split; [done|]. split.
  - intros room p Hg Hp Hopen. cbn.
    eapply (reachable_joined _ Hreach); [by apply get_Some_elem | done | done].
  - intros Hopen. cbn. by apply (reachable_own_room _ Hreach).
Qed.

Lemma send_message_reaches_room_witness :
  let st := run [Connection "a";
                 CreateRoom "a" "R1" "Alice" (Some "M") "r1" "u1" 0;
                 Connection "b"] init in
  reachable st ∧
  ∃ e, on_send_message "a" "b" "hello" "Alice" "m1" "t1" st = (st, [e]) ∧
       payload e = new_message "m1" "Alice" "hello" "t1" ∧
       recipients e = {["b"]}.
Proof.
  intros st.
  assert (reachable st) as Hreach.
  { apply reachable_run; [apply reachable_init | by vm_compute]. }
  split; [done|].
  destruct (send_message_reaches_room st "a" "b" "hello" "Alice" "m1" "t1"
              Hreach) as (e & He & Hp & Hr & _).
  exists e. split; [exact He|]. split; [exact Hp|].
  rewrite Hr. apply (bool_decide_unpack _). by vm_compute.
Defined.

Lemma find_room_unrecorded s st :
  recorded s st = false → find_room s (rooms st) = None.
Proof.
  unfold recorded. induction (rooms st) as [|[r rm] rs IH]; [done|].
  cbn. destruct (JsMap.has s (users rm)); [done | apply IH].
Qed.

(** X6: when a connection that is recorded in no room closes, the
    listener finds nothing: the rooms are as before and nothing is
    emitted. *)
Theorem disconnect_unrecorded s st :
  recorded s st = false →
  on_disconnect s st = (socket_close s st, []).
Proof.
  intros Hrec. unfold on_disconnect, disconnect_listener.
  by rewrite (find_room_unrecorded s (socket_close s st)).
Qed.

Lemma disconnect_unrecorded_witness :
  let st := run [Connection "a";
                 CreateRoom "a" "R1" "Alice" (Some "M") "r1" "u1" 0;
                 Connection "b"] init in
  recorded "b" st = false ∧
  rooms (on_disconnect "b" st).1 = rooms st.
Proof.
  intros st. split; [reflexivity|].
  by rewrite (disconnect_unrecorded "b" st eq_refl).
Defined.

(** X7: when a connection closes, and the first room of [rooms] that
    records it has it as host and has other participants, that room
    afterwards has exactly one host, the first of the remaining
    participants in the order they joined; the others keep their
    records, and [user-left] carries the one who left and the new list.
    The listener goes no further: a later room that records the same
    connection is not touched. *)
Theorem host_leaves_one_host s st roomId room user k u rest :
  reachable st →
  find_room s (rooms st) = Some (roomId, room) →
  JsMap.get s (users room) = Some user →
  isHost user = true →
  JsMap.delete s (users room) = (k, u) :: rest →
  let us' := (k, with_isHost true u) :: rest in
  ∃ e,
    on_disconnect s st
      = (with_rooms (JsMap.set roomId (with_users us' room) (rooms st))
           (socket_close s st), [e]) ∧
    hosts (with_users us' room) = [with_isHost true u] ∧
    payload e = user_left user (JsMap.values us') ∧
    recipients e = members roomId st ∖ {[s]}.
Proof.
  intros Hreach Hf Hu Hhost Hrest us'.
  destruct (find_room_Some _ _ _ _ Hf) as [_ Hin].
  destruct (reachable_at_most_one_host _ Hreach _ _ Hin) as [_ Hone].
  pose proof (hosts_of_delete_host _ _ _ Hu Hhost) as Hlt.
  unfold hosts in Hone.
  assert (hosts_of ((k, u) :: rest) = []) as Hnone.
  { rewrite <- Hrest. apply length_zero_iff_nil. lia. }
  rewrite hosts_of_cons in Hnone.
  assert (hosts_of rest = []) as Hrest_none.
  { destruct (isHost u); [done | exact Hnone]. }
  assert (hosts (with_users us' room) = [with_isHost true u]) as Hhosts.
  { unfold hosts. cbn [users with_users]. subst us'.
    by rewrite hosts_of_cons, Hrest_none. }
  unfold on_disconnect, disconnect_listener. cbn [rooms socket_close].
  rewrite Hf, Hu, Hrest, Hhost. cbn.
  eexists. split; [reflexivity|]. split; [exact Hhosts|]. split; [done|].
  cbn [recipients socket_to_emit]. rewrite members_socket_close.
  apply set_eq. intros x. rewrite !elem_of_difference. tauto.
Qed.

Lemma host_leaves_one_host_witness :
  let st := run [Connection "a";
                 CreateRoom "a" "R1" "Alice" (Some "M") "r1" "u1" 0;
                 Connection "b"; JoinRoom "b" "r1" "Bob" "u2";
                 Connection "c"; JoinRoom "c" "r1" "Carol" "u3"] init in
  let bob := {| user_id := "u2"; user_name := "Bob"; isHost := false;
                socketId := "b" |} in
  reachable st ∧
  ∃ room user rest,
    find_room "a" (rooms st) = Some ("r1", room) ∧
    JsMap.get "a" (users room) = Some user ∧
    isHost user = true ∧
    JsMap.delete "a" (users room) = ("b", bob) :: rest ∧
    hosts (with_users (("b", with_isHost true bob) :: rest) room)
      = [with_isHost true bob].
Proof.
  intros st bob.
  assert (reachable st) as Hreach.
  { apply reachable_run; [apply reachable_init | by vm_compute]. }
  split; [done|]. eexists _, _, _.
  split; [reflexivity|]. split; [reflexivity|]. split; [reflexivity|].
  split; [reflexivity|].
  destruct (host_leaves_one_host "a" st "r1" _ _ "b" bob _ Hreach
              eq_refl eq_refl eq_refl eq_refl) as (e & _ & Hhosts & _).
  exact Hhosts.
Defined.

(** X8: in every reachable state a room that [rooms] holds has at
    least one participant and at most one host. *)
Theorem rooms_inhabited_one_host st roomId room :
  reachable st →
  JsMap.get roomId (rooms st) = Some room →
  users room ≠ [] ∧ (length (hosts room) ≤ 1)%nat.
Proof.
  intros Hreach Hg.
  by apply (reachable_at_most_one_host _ Hreach roomId), get_Some_elem.
Qed.

Lemma rooms_inhabited_one_host_witness :
  let st := run [Connection "a";
                 CreateRoom "a" "R1" "Alice" (Some "M") "r1" "u1" 0;
                 Connection "b"; JoinRoom "b" "r1" "Bob" "u2";
                 Disconnect "a"] init in
  reachable st ∧
  ∃ room, JsMap.get "r1" (rooms st) = Some room ∧ users room ≠ [].
Proof.
  intros st.
  assert (reachable st) as Hreach.
  { apply reachable_run; [apply reachable_init | by vm_compute]. }
  split; [done|]. eexists. split; [reflexivity|].
  apply (rooms_inhabited_one_host st "r1" _ Hreach eq_refl).
Defined.

(** X9: the [disconnect] listener touches one room, the first that
    records the socket: every other room, also one that records the
    same socket, is left exactly as it was, while the connection is
    closed. *)
Theorem disconnect_first_room_only s st roomId room roomId' room' :
  find_room s (rooms st) = Some (roomId, room) →
  (roomId', room') ∈ rooms st →
  roomId' ≠ roomId →
  (roomId', room') ∈ rooms (on_disconnect s st).1 ∧
  s ∉ sockets (on_disconnect s st).1.
Proof.
  intros Hf Hin Hne.
  destruct (find_room_Some _ _ _ _ Hf) as [Hhas _].
  apply has_get in Hhas as [user Hu].
  split.
  - unfold on_disconnect.
    rewrite (disconnect_listener_rooms s (socket_close s st) roomId room user)
      by done.
    match goal with |- context [Nat.eqb ?n 0] => destruct (Nat.eqb n 0) end.
    + by apply elem_of_delete_ne.
    + by apply elem_of_set_ne.
  - unfold on_disconnect, disconnect_listener. cbn [rooms socket_close].
    rewrite Hf, Hu.
    match goal with |- context [Nat.eqb ?n 0] => destruct (Nat.eqb n 0) end;
      cbn; rewrite elem_of_difference, elem_of_singleton; tauto.
Qed.

Lemma disconnect_first_room_only_witness :
  let st := run [Connection "a";
                 CreateRoom "a" "R1" "Alice" None "r1" "u1" 0;
                 CreateRoom "a" "R2" "Alice" None "r2" "u2" 1] init in
  ∃ room room',
    find_room "a" (rooms st) = Some ("r1", room) ∧
    ("r2", room') ∈ rooms st ∧ "r2" ≠ "r1" ∧
    is_Some (JsMap.get "a" (users room')) ∧
    ("r2", room') ∈ rooms (on_disconnect "a" st).1.
Proof.
  intros st. eexists _, _. split; [reflexivity|].
  assert ("r2" ≠ "r1") as Hne by done.
  split; [right; left|]. split; [exact Hne|].
  split; [by eexists|].
  apply (disconnect_first_room_only "a" st "r1" _ "r2" _ eq_refl);
    [right; left | exact Hne].
Defined.

(** *** Open connections *)

Lemma members_open_step i st :
  members_open st → admissible i st = true → members_open (step i st).1.
Proof.
  intros Hinv Hadm.
  assert (∀ s r, s ∈ sockets st →
            ∀ rs, members_open (socket_join s r (with_rooms rs st))) as Hjoin.
  { intros s r Hs rs r' p. destruct (decide (r = r')) as [->|Hne].
    - rewrite members_socket_join_eq, members_with_rooms.
      intros [->%elem_of_singleton|Hp]%elem_of_union; [done | by eapply Hinv].
    - rewrite members_socket_join_ne, members_with_rooms by done. apply Hinv. }
  destruct i; simpl in *; try apply bool_decide_eq_true in Hadm.
  - intros r p. unfold on_connection. cbn [fst].
    change (sockets (socket_join s s _)) with (sockets st ∪ {[s]}).
    destruct (decide (s = r)) as [->|Hne].
    + rewrite members_socket_join_eq.
      intros [->%elem_of_singleton|Hp]%elem_of_union.
      * by apply elem_of_union_r, elem_of_singleton.
      * apply elem_of_union_l. by apply (Hinv r).
    + rewrite members_socket_join_ne by done.
      intros Hp. apply elem_of_union_l. by apply (Hinv r).
  - unfold on_join_room.
    destruct (JsMap.has roomId (rooms st)); [|done]. simpl.
    destruct (JsMap.get roomId (rooms st)); [|done]. by apply Hjoin.
  - by apply Hjoin.
  - unfold on_play.
    by destruct (JsMap.get roomId (rooms st)).
  - unfold on_pause.
    by destruct (JsMap.get roomId (rooms st)).
  - unfold on_seek.
    by destruct (JsMap.get roomId (rooms st)).
  - unfold on_change_video.
    by destruct (JsMap.get roomId (rooms st)).
  - done.
  - assert (members_open (socket_close s st)) as Hclosed.
    { intros r p. rewrite members_socket_close. cbn.
      rewrite !elem_of_difference. intros [Hp ?]. split; [by eapply Hinv | done]. }
    unfold on_disconnect, disconnect_listener.
    destruct (find_room s (rooms (socket_close s st))) as [[r rm]|]; [|done].
    destruct (JsMap.get s (users rm)); [|done].
    by match goal with |- context [Nat.eqb ?n 0] => destruct (Nat.eqb n 0) end.
Qed.

Lemma reachable_members_open st : reachable st → members_open st.
Proof.
  induction 1 as [|i st _ IH Hadm].
  - intros r p. unfold members. cbn. rewrite lookup_empty. cbn.
    by intros ?%elem_of_empty.
  - by apply members_open_step.
Qed.

(** X10: nothing is ever sent to a closed connection: whatever
    arrives in a reachable state, every message the handler emits goes
    to sockets that are open when it returns. *)
Theorem emits_reach_open_sockets i st e :
  reachable st → admissible i st = true →
  e ∈ (step i st).2 → recipients e ⊆ sockets (step i st).1.
Proof.
  intros Hreach Hadm He.
  pose proof (reachable_members_open _ (reachable_step _ _ Hreach Hadm))
    as Hafter.
  pose proof (reachable_members_open _ Hreach) as Hbefore.
  assert (∀ s roomId room c,
    i = command_input s roomId c →
    JsMap.get roomId (rooms st) = Some room →
    recipients e ⊆ sockets (step i st).1) as Hcommand.
  { intros s roomId room c -> Hg. rewrite (command_emits _ _ _ _ _ Hg) in He.
    apply list_elem_of_singleton in He as ->.
    rewrite (command_room _ _ _ _ _ Hg). cbn.
    intros p Hp. apply (Hbefore roomId).
    destruct (is_change_video c); [done|].
    by apply elem_of_difference in Hp as [? _]. }
  destruct i; simpl in *; try apply bool_decide_eq_true in Hadm.
  - by apply elem_of_nil in He.
  - destruct (JsMap.get roomId (rooms st)) as [room|] eqn:Hg.
    + rewrite (on_join_room_found _ _ _ _ _ _ Hg) in He, Hafter |- *.
      cbn zeta in *. cbn [fst snd] in *.
      apply elem_of_cons in He as [->|He].
      * cbn. by apply singleton_subseteq_l.
      * apply list_elem_of_singleton in He as ->. cbn [recipients socket_to_emit].
        intros p [Hp _]%elem_of_difference. by eapply Hafter.
    + rewrite (on_join_room_missing _ _ _ _ _ Hg) in He |- *. cbn in *.
      apply list_elem_of_singleton in He as ->. cbn.
      by apply singleton_subseteq_l.
  - unfold on_create_room in *. cbn in He |- *.
    apply list_elem_of_singleton in He as ->. cbn.
    by apply singleton_subseteq_l.
  - destruct (JsMap.get roomId (rooms st)) as [room|] eqn:Hg.
    + by apply (Hcommand s roomId room (cmd_play t)).
    + unfold on_play in He. rewrite Hg in He. by apply elem_of_nil in He.
  - destruct (JsMap.get roomId (rooms st)) as [room|] eqn:Hg.
    + by apply (Hcommand s roomId room (cmd_pause t)).
    + unfold on_pause in He. rewrite Hg in He. by apply elem_of_nil in He.
  - destruct (JsMap.get roomId (rooms st)) as [room|] eqn:Hg.
    + by apply (Hcommand s roomId room (cmd_seek t)).
    + unfold on_seek in He. rewrite Hg in He. by apply elem_of_nil in He.
  - destruct (JsMap.get roomId (rooms st)) as [room|] eqn:Hg.
    + by apply (Hcommand s roomId room (cmd_change_video url)).
    + unfold on_change_video in He. rewrite Hg in He.
      by apply elem_of_nil in He.
  - unfold on_send_message in *. cbn in *.
    apply list_elem_of_singleton in He as ->. cbn.
    intros p Hp. by eapply Hbefore.
  - unfold on_disconnect, disconnect_listener in *.
    cbn [rooms socket_close] in *.
    destruct (find_room s (rooms st)) as [[r rm]|]; [|by apply elem_of_nil in He].
    destruct (JsMap.get s (users rm)); [|by apply elem_of_nil in He].
    revert He Hafter.
    match goal with |- context [Nat.eqb ?n 0] => destruct (Nat.eqb n 0) end;
      cbn [fst snd]; intros He Hafter; [by apply elem_of_nil in He|].
    apply list_elem_of_singleton in He as ->.
    cbn [recipients socket_to_emit sockets with_rooms].
    intros p [Hp _]%elem_of_difference.
    by apply (Hafter r).
Qed.

Lemma emits_reach_open_sockets_witness :
  let st := run [Connection "a";
                 CreateRoom "a" "R1" "Alice" (Some "M") "r1" "u1" 0;
                 Connection "b"; JoinRoom "b" "r1" "Bob" "u2"] init in
  let i := Disconnect "a" in
  reachable st ∧ admissible i st = true ∧
  ∃ e, e ∈ (step i st).2 ∧ recipients e ⊆ sockets (step i st).1.
Proof.
  intros st i.
  assert (reachable st) as Hreach.
  { apply reachable_run; [apply reachable_init | by vm_compute]. }
  assert (admissible i st = true) as Hadm by (by vm_compute).
  split; [done|]. split; [done|].
  eexists. split; [by left|].
  apply (emits_reach_open_sockets i st _ Hreach Hadm). by left.
Defined.

(** *** Keys *)

Lemma keys_promote_first (us : list (string * User)) :
  JsMap.keys (promote_first us) = JsMap.keys us.
Proof. by destruct us as [|[k u] us]. Qed.

Lemma elem_of_promote_first k u (us : list (string * User)) :
  (k, u) ∈ promote_first us → ∃ u0, (k, u0) ∈ us ∧ socketId u = socketId u0.
Proof.
  destruct us as [|[k0 u0] us]; cbn; [by intros ?%elem_of_nil|].
  intros [[= -> ->]|Hin]%elem_of_cons.
  - exists u0. split; [by left | done].
  - exists u. split; [by right | done].
Qed.

Lemma well_keyed_step i st : well_keyed st → well_keyed (step i st).1.
Proof.
  intros [Hrooms Hinv].
  assert (∀ roomId room0 room1,
    JsMap.get roomId (rooms st) = Some room0 →
    room_id room1 = room_id room0 → users room1 = users room0 →
    well_keyed (with_rooms (JsMap.set roomId room1 (rooms st)) st)) as Hsame.
  { intros r room0 room1 Hg Hid Hus. split; cbn.
    - by apply NoDup_keys_set.
    - intros r' room [[= -> ->]|Hin]%elem_of_set; [|by apply Hinv].
      rewrite Hid, Hus. apply Hinv. by apply get_Some_elem. }
  destruct i; simpl.
  - done.
  - unfold on_join_room.
    destruct (JsMap.get roomId (rooms st)) as [room0|] eqn:Hg.
    2:{ by rewrite (has_false _ _ Hg). }
    assert (JsMap.has roomId (rooms st) = true) as ->.
    { apply has_get. by rewrite Hg. }
    destruct (Hinv _ _ (get_Some_elem _ _ _ Hg)) as (Hid & Hus & Hsock).
    split; cbn.
    + by apply NoDup_keys_set.
    + intros r room [[= -> ->]|Hin]%elem_of_set; [|by apply Hinv].
      cbn. split; [done|]. split; [by apply NoDup_keys_set|].
      intros k u [[= -> ->]|Hu]%elem_of_set; [done | by apply Hsock].
  - unfold on_create_room. split; cbn.
    + by apply NoDup_keys_set.
    + intros r room [[= -> ->]|Hin]%elem_of_set; [|by apply Hinv].
      cbn. split; [done|]. split; [apply NoDup_singleton|].
      by intros k u [= -> ->]%list_elem_of_singleton.
  - unfold on_play.
    destruct (JsMap.get roomId (rooms st)) eqn:Hg; [by eapply Hsame | done].
  - unfold on_pause.
    destruct (JsMap.get roomId (rooms st)) eqn:Hg; [by eapply Hsame | done].
  - unfold on_seek.
    destruct (JsMap.get roomId (rooms st)) eqn:Hg; [by eapply Hsame | done].
  - unfold on_change_video.
    destruct (JsMap.get roomId (rooms st)) eqn:Hg; [by eapply Hsame | done].
  - done.
  - unfold on_disconnect, disconnect_listener. cbn [rooms socket_close].
    destruct (find_room s (rooms st)) as [[r rm]|] eqn:Hf; [|done].
    destruct (JsMap.get s (users rm)) as [user|]; [|done].
    destruct (find_room_Some _ _ _ _ Hf) as [_ Hrm].
    destruct (Hinv _ _ Hrm) as (Hid & Hus & Hsock).
    set (us := JsMap.delete s (users rm)).
    set (us' := if isHost user && Nat.ltb 0 (JsMap.size us)
                then promote_first us else us).
    assert (NoDup (JsMap.keys us') ∧
            ∀ k u, (k, u) ∈ us' → socketId u = k) as [Hus' Hsock'].
    { subst us'. destruct (isHost user && Nat.ltb 0 (JsMap.size us)).
      - split; [rewrite keys_promote_first; by apply NoDup_keys_delete|].
        intros k u (u0 & Hu0 & ->)%elem_of_promote_first.
        by apply Hsock, (elem_of_delete s).
      - split; [by apply NoDup_keys_delete|].
        intros k u Hu. by apply Hsock, (elem_of_delete s). }
    clearbody us'.
    destruct (Nat.eqb (JsMap.size us') 0); split; cbn.
    + by apply NoDup_keys_delete.
    + intros r' room Hin%elem_of_delete. by apply Hinv.
    + by apply NoDup_keys_set.
    + intros r' room [[= -> ->]|Hin]%elem_of_set; [|by apply Hinv].
      done.
Qed.

Lemma reachable_well_keyed st : reachable st → well_keyed st.
Proof.
  induction 1 as [|i st _ IH _].
  - split; [apply NoDup_nil_2|]. by intros r room ?%elem_of_nil.
  - by apply well_keyed_step.
Qed.

(** X11: in every reachable state a room is stored under its own id
    and a participant under the id of its own socket, and neither
    [rooms] nor any [users] holds a key twice: a participant list never
    shows a connection twice. *)
Theorem reachable_keys st roomId room :
  reachable st →
  JsMap.get roomId (rooms st) = Some room →
  room_id room = roomId ∧
  NoDup (socketId <$> JsMap.values (users room)) ∧
  ∀ p u, JsMap.get p (users room) = Some u → socketId u = p.
Proof.
  intros Hreach Hg.
  destruct (reachable_well_keyed _ Hreach) as [_ Hinv].
  destruct (Hinv _ _ (get_Some_elem _ _ _ Hg)) as (Hid & Hus & Hsock).
  split; [done|]. split.
  - assert (socketId <$> JsMap.values (users room) = JsMap.keys (users room))
      as ->; [|done].
    unfold JsMap.values, JsMap.keys. rewrite <- list_fmap_compose.
    apply list_fmap_ext. intros i [k u] Hin. cbn. apply Hsock.
    by eapply list_elem_of_lookup_2.
  - intros p u Hu. by apply Hsock, get_Some_elem.
Qed.

Lemma reachable_keys_witness :
  let st := run [Connection "a";
                 CreateRoom "a" "R1" "Alice" (Some "M") "r1" "u1" 0;
                 JoinRoom "a" "r1" "Alice" "u2";
                 Connection "b"; JoinRoom "b" "r1" "Bob" "u3"] init in
  reachable st ∧
  ∃ room, JsMap.get "r1" (rooms st) = Some room ∧ room_id room = "r1".
Proof.
  intros st.
  assert (reachable st) as Hreach.
  { apply reachable_run; [apply reachable_init | by vm_compute]. }
  split; [done|]. eexists. split; [reflexivity|].
  apply (reachable_keys st "r1" _ Hreach eq_refl).
Defined.

(** X12: the discovery route lists exactly the rooms that can be
    joined: in a reachable state an id is listed if and only if
    [join-room] finds a room for it, each room is listed once, and no
    listed room has a user count of 0. *)
Theorem api_rooms_joinable st :
  reachable st →
  (∀ roomId, roomId ∈ public_id <$> api_rooms st
             ↔ is_Some (JsMap.get roomId (rooms st))) ∧
  NoDup (public_id <$> api_rooms st) ∧
  (∀ r, r ∈ api_rooms st → (1 ≤ userCount r)%nat).
Proof.
  intros Hreach.
  destruct (reachable_well_keyed _ Hreach) as [Hrooms Hinv].
  pose proof (reachable_at_most_one_host _ Hreach) as Hhost.
  assert (public_id <$> api_rooms st = JsMap.keys (rooms st)) as Hids.
  { unfold api_rooms, JsMap.values, JsMap.keys.
    rewrite <- !list_fmap_compose.
    apply list_fmap_ext. intros i [k room] Hin. cbn.
    by eapply Hinv, list_elem_of_lookup_2. }
  rewrite Hids. split; [|split; [done|]].
  - intros roomId. unfold JsMap.keys. rewrite list_elem_of_fmap. split.
    + intros ([k room] & -> & Hin). by eapply elem_get_is_Some.
    + intros [room Hg]. exists (roomId, room).
      split; [done | by apply get_Some_elem].
  - intros r. unfold api_rooms, JsMap.values.
    rewrite <- list_fmap_compose, list_elem_of_fmap.
    intros ([k room] & -> & Hin). cbn.
    destruct (Hhost _ _ Hin) as [Hne _].
    destruct (users room); [done | cbn; lia].
Qed.

Lemma api_rooms_joinable_witness :
  let st := run [Connection "a";
                 CreateRoom "a" "R1" "Alice" (Some "M") "r1" "u1" 0;
                 Connection "b";
                 CreateRoom "b" "R2" "Bob" None "r2" "u2" 5;
                 Disconnect "a"] init in
  reachable st ∧ public_id <$> api_rooms st = ["r2"] ∧
  NoDup (public_id <$> api_rooms st).
Proof.
  intros st.
  assert (reachable st) as Hreach.
  { apply reachable_run; [apply reachable_init | by vm_compute]. }
  split; [done|]. split; [reflexivity|].
  apply (api_rooms_joinable st Hreach).
Defined.

End Gateway_more.

(** ** The local relay, further *)

Section Relay_more.
Import App.

(** X13: what a context publishes it never applies itself, and a
    context of another identity applies it, on either transport.  Two
    contexts whose [window.name] is empty are both [main]: neither
    applies what the other publishes. *)
Theorem relay_round_trip {R} (handler : SyncEvent → list R)
    w w' now eventType data :
  let event := published w now eventType data in
  let message := {| message_data := Some event |} in
  let change := {| key := Some "viewsync_event";
                   newValue := Some (json event) |} in
  (∀ c, c ∈ broadcastSyncEvent w now eventType data →
        c = channel_postMessage event
        ∨ c = localStorage_setItem "viewsync_event" event) ∧
  (own_id w' = own_id w →
   handleBroadcastMessage handler w' message = [] ∧
   handleStorageChange handler w' change = []) ∧
  (name w = "" → name w' = "" →
   handleBroadcastMessage handler w' message = [] ∧
   handleStorageChange handler w' change = []) ∧
  (own_id w' ≠ own_id w → eventType ≠ "" →
   handleBroadcastMessage handler w' message = handler event ∧
   handleStorageChange handler w' change = handler event).
Proof.
  intros event message change.
  assert (own_id w' = own_id w →
          handleBroadcastMessage handler w' message = [] ∧
          handleStorageChange handler w' change = []) as Hown.
  { intros Heq. unfold handleBroadcastMessage, handleStorageChange. cbn.
    rewrite !(decide_False (P := own_id w ≠ own_id w'))
      by (intros Hne; by apply Hne).
    split; [by destruct (decide (eventType ≠ ""))|].
    by destruct (decide (Some "viewsync_event" = Some "viewsync_event")). }
  split; [|split; [done|split]].
  - intros c. unfold broadcastSyncEvent. fold (published w now eventType data).
    fold event. destruct (BroadcastChannel w); cbn.
    + intros [->|Hc]%elem_of_cons; [by left|].
      apply list_elem_of_singleton in Hc as ->. by right.
    + intros ->%list_elem_of_singleton. by right.
  - intros Hw Hw'. apply Hown. unfold own_id. by rewrite Hw, Hw'.
  - intros Hne Htype.
    unfold handleBroadcastMessage, handleStorageChange. cbn.
    rewrite !(decide_True (P := own_id w ≠ own_id w')) by congruence.
    by rewrite decide_True.
Qed.

Lemma relay_round_trip_witness :
  let w := {| name := ""; BroadcastChannel := true; YT_Player := true |} in
  let w' := {| name := "sync-aaaaaaaaaaa-1";
               BroadcastChannel := true; YT_Player := true |} in
  let event := published w 5 "pause" no_data in
  own_id w' ≠ own_id w ∧ "pause" ≠ "" ∧
  handleBroadcastMessage (λ ev, [ev]) w' {| message_data := Some event |}
    = [event].
Proof.
  intros w w' event.
  assert (own_id w' ≠ own_id w) as Hne by done.
  assert ("pause" ≠ "") as Htype by done.
  split; [exact Hne|]. split; [exact Htype|].
  apply (relay_round_trip (λ ev, [ev]) w w' 5 "pause" no_data); done.
Defined.

End Relay_more.

(** ** The playback aggregator, further *)

Section Aggregator_more.
Import App.

Lemma each_until_throw_local method call players :
  (∀ v, is_relay_call (call v) = false) →
  existsb is_relay_call (each_until_throw method call players) = false.
Proof.
  intros Hcall. induction players as [|[v [p|]] ps IH]; cbn; [done| |done].
  destruct (method p); cbn; by rewrite ?Hcall.
Qed.

(** X14: applying an event received from the relay never writes to the
    relay, so a received event is not published again by its handler;
    an event of a type other than [play], [pause] and [seek] does
    nothing at all. *)
Theorem handleSyncEvent_local st event :
  existsb is_relay_call (handleSyncEvent st event) = false ∧
  (ev_type event ≠ "play" → ev_type event ≠ "pause" →
   ev_type event ≠ "seek" → handleSyncEvent st event = []).
Proof.
  unfold handleSyncEvent. split.
  - repeat case_decide; cbn; try done; by apply each_until_throw_local.
  - intros H1 H2 H3. by rewrite !decide_False.
Qed.

Lemma handleSyncEvent_local_witness :
  let st := {| videos := []; readyPlayers := []; playersRef := [];
               loopEnabled := false |} in
  let event := {| ev_type := "chat"; ev_data := no_data;
                  ev_timestamp := 0; ev_windowId := "other" |} in
  ev_type event ≠ "play" ∧ ev_type event ≠ "pause" ∧
  ev_type event ≠ "seek" ∧ handleSyncEvent st event = [].
Proof.
  intros st event.
  assert (ev_type event ≠ "play") as H1 by done.
  assert (ev_type event ≠ "pause") as H2 by done.
  assert (ev_type event ≠ "seek") as H3 by done.
  split; [exact H1|]. split; [exact H2|]. split; [exact H3|].
  exact (proj2 (handleSyncEvent_local st event) H1 H2 H3).
Defined.

Lemma elem_of_each_player method call players v :
  (∀ v1 v2, call v1 = call v2 → v1 = v2) →
  call v ∈ each_player method call players
  ↔ ∃ p, (v, Some p) ∈ players ∧ method p ≠ absent.
Proof.
  intros Hinj. induction players as [|[v0 [p0|]] ps IH]; cbn.
  - split; [by intros ?%elem_of_nil | by intros (p & ?%elem_of_nil & _)].
  - destruct (method p0) eqn:Hm.
    + rewrite IH. split.
      * intros (p & Hin & Hp). exists p. split; [by right | done].
      * intros (p & [[= -> ->]|Hin]%elem_of_cons & Hp); [done|]. by exists p.
    + rewrite elem_of_cons, IH. split.
      * intros [Hv%Hinj|(p & Hin & Hp)].
        -- subst v0. exists p0. split; [by left | by rewrite Hm].
        -- exists p. split; [by right | done].
      * intros (p & [[= -> ->]|Hin]%elem_of_cons & Hp); [by left|].
        right. by exists p.
    + rewrite elem_of_cons, IH. split.
      * intros [Hv%Hinj|(p & Hin & Hp)].
        -- subst v0. exists p0. split; [by left | by rewrite Hm].
        -- exists p. split; [by right | done].
      * intros (p & [[= -> ->]|Hin]%elem_of_cons & Hp); [by left|].
        right. by exists p.
  - rewrite IH. split.
    + intros (p & Hin & Hp). exists p. split; [by right | done].
    + intros (p & [[=]|Hin]%elem_of_cons & Hp). by exists p.
Qed.

(** X15: [pauseAll] and [seekAll] reach every registered surface that
    has the method, ready or not and whether or not an earlier surface
    threw; they reach no other, and none at all while the API is not
    loaded. *)
Theorem pause_seek_reach_all w now st v :
  (player_pauseVideo v ∈ pauseAll w now st
   ↔ YT_Player w = true ∧
     ∃ p, (v, Some p) ∈ playersRef st ∧ pauseVideo p ≠ absent) ∧
  (∀ time,
     player_seekTo v (Some time) ∈ seekAll w now st time
     ↔ YT_Player w = true ∧
       ∃ p, (v, Some p) ∈ playersRef st ∧ seekTo p ≠ absent).
Proof.
  split; [|intros time]; unfold pauseAll, seekAll, broadcastSyncEvent;
    destruct (YT_Player w); cbn;
    try (split; [by intros ?%elem_of_nil | by intros [? _]]).
  - rewrite elem_of_cons, elem_of_app,
      (elem_of_each_player pauseVideo player_pauseVideo) by congruence.
    split; [|intros [_ ?]; by right; right].
    intros [?|[Hb|?]]; [done| |done].
    destruct (BroadcastChannel w); cbn in Hb;
      repeat (apply elem_of_cons in Hb as [?|Hb]; [done|]);
      by apply elem_of_nil in Hb.
  - rewrite elem_of_cons, elem_of_app,
      (elem_of_each_player seekTo (λ v, player_seekTo v (Some time)))
      by congruence.
    split; [|intros [_ ?]; by right; right].
    intros [?|[Hb|?]]; [done| |done].
    destruct (BroadcastChannel w); cbn in Hb;
      repeat (apply elem_of_cons in Hb as [?|Hb]; [done|]);
      by apply elem_of_nil in Hb.
Qed.

Lemma each_until_throw_stops method call before v p after :
  method p = throws →
  (∀ v0 p0, (v0, Some p0) ∈ before → method p0 ≠ throws) →
  each_until_throw method call (before ++ (v, Some p) :: after)
  = each_player method call before ++ [call v].
Proof.
  intros Hthrows Hbefore.
  induction before as [|[v0 [p0|]] ps IH]; cbn.
  - by rewrite Hthrows.
  - pose proof (Hbefore v0 p0 ltac:(by left)) as Hp0.
    destruct (method p0); [|cbn; f_equal|done];
      apply IH; intros; eapply Hbefore; by right.
  - apply IH; intros; eapply Hbefore; by right.
Qed.

(** X16: a command received from the relay is applied to the surfaces
    in the order of their registration up to the first whose method
    throws; the surfaces registered after that one are not reached. *)
Theorem remote_command_stops_at_throw st event before v p after :
  playersRef st = before ++ (v, Some p) :: after →
  (ev_type event = "play" → playVideo p = throws →
   (∀ v0 p0, (v0, Some p0) ∈ before → playVideo p0 ≠ throws) →
   handleSyncEvent st event
   = setIsPlaying true
     :: each_player playVideo player_playVideo before
     ++ [player_playVideo v]) ∧
  (ev_type event = "pause" → pauseVideo p = throws →
   (∀ v0 p0, (v0, Some p0) ∈ before → pauseVideo p0 ≠ throws) →
   handleSyncEvent st event
   = setIsPlaying false
     :: each_player pauseVideo player_pauseVideo before
     ++ [player_pauseVideo v]) ∧
  (ev_type event = "seek" → seekTo p = throws →
   (∀ v0 p0, (v0, Some p0) ∈ before → seekTo p0 ≠ throws) →
   let time := time_of (ev_data event) in
   handleSyncEvent st event
   = setCurrentTime time
     :: each_player seekTo (λ v, player_seekTo v time) before
     ++ [player_seekTo v time]).
Proof.
  intros Hplayers. unfold handleSyncEvent. rewrite Hplayers.
  split; [|split]; intros ->; cbn; intros Hthrows Hbefore; f_equal;
    by apply each_until_throw_stops.
Qed.

Lemma remote_command_stops_at_throw_witness :
  let ok := {| playVideo := returns; pauseVideo := returns;
               seekTo := returns; getPlayerState := state_returns 1;
               destroy := returns |} in
  let bad := {| playVideo := returns; pauseVideo := throws;
                seekTo := returns; getPlayerState := state_returns 1;
                destroy := returns |} in
  let st := {| videos := []; readyPlayers := [];
               playersRef := [("aaaaaaaaaaa", Some ok);
                              ("bbbbbbbbbbb", Some bad);
                              ("ccccccccccc", Some ok)];
               loopEnabled := false |} in
  let event := {| ev_type := "pause"; ev_data := no_data;
                  ev_timestamp := 0; ev_windowId := "other" |} in
  handleSyncEvent st event
  = [setIsPlaying false; player_pauseVideo "aaaaaaaaaaa";
     player_pauseVideo "bbbbbbbbbbb"].
Proof.
  intros ok bad st event.
  apply (remote_command_stops_at_throw st event
           [("aaaaaaaaaaa", Some ok)] "bbbbbbbbbbb" bad
           [("ccccccccccc", Some ok)] eq_refl); try reflexivity.
  intros v0 p0 Hin. apply list_elem_of_singleton in Hin.
  injection Hin as _ ->. subst ok. cbn. congruence.
Defined.

(** X17: a state change other than [PLAYING] and [PAUSED] stays
    local: the handler neither writes to the relay nor sets the playing
    flag.  It calls the surface only to restart it, at [ENDED] with the
    loop on, and then only the surface that ended. *)
Theorem other_states_stay_local w now st videoId data :
  data ≠ PlayerState.PLAYING → data ≠ PlayerState.PAUSED →
  let calls := onPlayerStateChange w now st videoId data in
  existsb is_relay_call calls = false ∧
  (∀ c, c ∈ calls →
        c = player_seekTo videoId (Some 0%Z) ∨ c = player_playVideo videoId) ∧
  (data ≠ PlayerState.ENDED ∨ loopEnabled st = false → calls = []).
Proof.
  intros Hplaying Hpaused calls. subst calls. unfold onPlayerStateChange.
  rewrite !decide_False by done.
  destruct (bool_decide (data = PlayerState.ENDED) && loopEnabled st) eqn:Hloop.
  - apply andb_true_iff in Hloop as [Hended%bool_decide_eq_true Hon].
    split; [|split].
    + destruct (player_of st videoId) as [p|]; [|done].
      by destruct (seekTo p), (playVideo p).
    + intros c. destruct (player_of st videoId) as [p|];
        [|by intros ?%elem_of_nil].
      destruct (seekTo p), (playVideo p); cbn;
        repeat (intros [->|Hc]%elem_of_cons; [by eauto|revert Hc]);
        by intros ?%elem_of_nil.
    + intros [?|Hoff]; [done | congruence].
  - split; [done|]. split; [by intros c ?%elem_of_nil | done].
Qed.

Lemma other_states_stay_local_witness :
  let w := {| name := ""; BroadcastChannel := true; YT_Player := true |} in
  let p := {| playVideo := returns; pauseVideo := returns;
              seekTo := returns; getPlayerState := state_returns 0;
              destroy := returns |} in
  let st := {| videos := [{| id := "aaaaaaaaaaa"; url := ""; title := "";
                             startTime := 0; windowId := None |}];
               readyPlayers := ["aaaaaaaaaaa"];
               playersRef := [("aaaaaaaaaaa", Some p)];
               loopEnabled := true |} in
  PlayerState.ENDED ≠ PlayerState.PLAYING ∧
  PlayerState.ENDED ≠ PlayerState.PAUSED ∧
  existsb is_relay_call
    (onPlayerStateChange w 0 st "aaaaaaaaaaa" PlayerState.ENDED) = false.
Proof.
  intros w p st.
  assert (PlayerState.ENDED ≠ PlayerState.PLAYING) as H1 by done.
  assert (PlayerState.ENDED ≠ PlayerState.PAUSED) as H2 by done.
  split; [exact H1|]. split; [exact H2|].
  apply (other_states_stay_local w 0 st "aaaaaaaaaaa" PlayerState.ENDED H1 H2).
Defined.

(** *** The registry and [playAll] *)

Lemma length_non_null (entries : list (string * option Player)) :
  (length (non_null entries) ≤ length entries)%nat.
Proof.
  unfold non_null. induction entries as [|[v [p|]] es IH]; cbn; lia.
Qed.

(** The ways [playAll] ends: an alert, or the playing flag, the
    publication and the first timer, armed for one of three lists of
    targets. *)
Lemma set_add_elem videoId ids : videoId ∈ set_add videoId ids.
Proof.
  unfold set_add. case_bool_decide; [done|].
  apply elem_of_app. right. by left.
Qed.

(** X18: a surface that has signalled it is ready is played: with the
    API loaded and a clip listed, [playAll] after [onPlayerReady] does
    not alert; it arms its first timer for a list of targets that holds
    the surface just registered. *)
Theorem ready_surface_is_played w now st videoId target :
  YT_Player w = true → videos st ≠ [] →
  let st' := (onPlayerReady videoId target st).1 in
  ∃ targets,
    playAll w now st'
      = (setIsPlaying true :: broadcastSyncEvent w now "play" no_data,
         [(500%Z, start_players targets)]) ∧
    (videoId, target) ∈ targets.
Proof.
  intros Hyt Hvideos st'.
  assert ((videoId, target) ∈ ready_entries st') as Hin.
  { apply elem_of_ready_entries. split; [apply set_add_elem|].
    unfold player_of. subst st'. cbn. by rewrite get_set_eq. }
  assert (Nat.eqb (length (readyPlayers st')) 0 = false) as Hready.
  { pose proof (set_add_elem videoId (readyPlayers st)) as Hv.
    change (readyPlayers st') with (set_add videoId (readyPlayers st)).
    by destruct (set_add videoId (readyPlayers st)); [apply elem_of_nil in Hv|]. }
  assert (Nat.ltb 0 (length (readyPlayers st')) = true) as Hready'.
  { apply Nat.ltb_lt. apply Nat.eqb_neq in Hready. lia. }
  exists (ready_entries st'). split; [|done].
  unfold playAll. rewrite Hyt, Hready, Hready'.
  change (videos st') with (videos st).
  destruct (videos st) as [|x xs]; [done|]. cbn [negb length Nat.eqb andb].
  destruct (ready_entries st') as [|e es]; [by apply elem_of_nil in Hin|].
  done.
Qed.

Lemma ready_surface_is_played_witness :
  let w := {| name := ""; BroadcastChannel := false; YT_Player := true |} in
  let p := {| playVideo := returns; pauseVideo := returns;
              seekTo := returns; getPlayerState := state_returns 5;
              destroy := returns |} in
  let st := addVideo "aaaaaaaaaaa" "https://youtu.be/aaaaaaaaaaa" "Video 1"
              {| videos := []; readyPlayers := []; playersRef := [];
                 loopEnabled := false |} in
  YT_Player w = true ∧ videos st ≠ [] ∧
  ∃ targets,
    playAll w 0 (onPlayerReady "aaaaaaaaaaa" p st).1
      = (setIsPlaying true :: broadcastSyncEvent w 0 "play" no_data,
         [(500%Z, start_players targets)]) ∧
    ("aaaaaaaaaaa", p) ∈ targets.
Proof.
  intros w p st.
  assert (videos st ≠ []) as Hvideos by done.
  split; [reflexivity|]. split; [exact Hvideos|].
  exact (ready_surface_is_played w 0 st "aaaaaaaaaaa" p eq_refl Hvideos).
Defined.

Lemma set_set_same {K V} `{EqDecision K} (k : K) (v : V) m :
  JsMap.set k v (JsMap.set k v m) = JsMap.set k v m.
Proof.
  induction m as [|[k' v'] m IH]; cbn.
  - by rewrite decide_True.
  - destruct (decide (k = k')) as [->|Hne]; cbn.
    + by rewrite decide_True.
    + rewrite decide_False by done. by rewrite IH.
Qed.

(** X19: a surface that signals ready a second time is registered
    once: the state after the second signal is the state after the
    first, with one entry in [readyPlayers] and one in the registry. *)
Theorem onPlayerReady_idempotent videoId target st :
  let st1 := (onPlayerReady videoId target st).1 in
  (onPlayerReady videoId target st1).1 = st1.
Proof.
  intros st1. subst st1. unfold onPlayerReady. cbn [fst].
  cbn [videos readyPlayers playersRef loopEnabled].
  rewrite set_set_same. f_equal.
  unfold set_add at 1. by rewrite bool_decide_eq_true_2 by apply set_add_elem.
Qed.

Lemma removed_not_registered videoId st :
  NoDup (JsMap.keys (playersRef st)) →
  (∀ p, player_of st videoId = Some p → destroy p = returns) →
  ∀ p, (videoId, Some p) ∉ playersRef (removeVideo videoId st).1.
Proof.
  intros Hkeys Hdestroy p. unfold removeVideo. cbn [fst playersRef].
  destruct (player_of st videoId) as [p0|] eqn:Hp0.
  - rewrite (Hdestroy p0 eq_refl). unfold JsMap.delete.
    intros [Hne _]%list_elem_of_filter. by apply Hne.
  - intros Hin. apply (NoDup_keys_get _ _ _ Hkeys) in Hin.
    unfold player_of in Hp0. by rewrite Hin in Hp0.
Qed.

(** X20: [removeVideo] takes the clips of that id out of [videos], and
    what becomes of the surface depends on its [destroy], which is
    called outside any [try].  When [destroy] throws or is not there,
    the registry is left as it was: the surface stays registered.  When
    it returns (or nothing is found under the id), no player is
    registered under the id afterwards and a later press of the button
    never calls [playVideo] under it, although [readyPlayers] keeps the
    id. *)
Theorem removed_surface_not_played w now st videoId :
  NoDup (JsMap.keys (playersRef st)) →
  let st' := (removeVideo videoId st).1 in
  (∀ video, video ∈ videos st' → id video ≠ videoId) ∧
  (∀ p, player_of st videoId = Some p → destroy p ≠ returns →
        playersRef st' = playersRef st) ∧
  ((∀ p, player_of st videoId = Some p → destroy p = returns) →
   (∀ p, (videoId, Some p) ∉ playersRef st') ∧
   player_playVideo videoId
   ∉ (press w now st').1 ++ calls_of (press w now st').2).
Proof.
  intros Hkeys st'. split; [|split].
  - intros video Hin. subst st'. cbn in Hin.
    by apply list_elem_of_filter in Hin as [? _].
  - intros p Hp Hd. subst st'. unfold removeVideo. cbn [fst playersRef].
    rewrite Hp. by destruct (destroy p).
  - intros Hdestroy.
    pose proof (removed_not_registered videoId st Hkeys Hdestroy) as Hout.
    fold st' in Hout. split; [done|].
    intros Hv. apply press_playVideo in Hv as (p & Hp & [[_ Hv]|Hv]).
    + unfold player_of in Hv.
      destruct (JsMap.get videoId (playersRef st')) as [[q|]|] eqn:Hg.
      * injection Hv as ->. by apply get_Some_elem, Hout in Hg.
      * done.
      * destruct (inherited videoId); [|done]. by injection Hv as <-.
    + by apply Hout in Hv.
Qed.

Lemma removed_surface_not_played_witness :
  let w := {| name := ""; BroadcastChannel := true; YT_Player := true |} in
  let p := {| playVideo := returns; pauseVideo := returns;
              seekTo := returns; getPlayerState := state_returns 5;
              destroy := returns |} in
  let v i := {| id := i; url := i; title := i; startTime := 0;
                windowId := None |} in
  let st := {| videos := [v "aaaaaaaaaaa"; v "bbbbbbbbbbb"];
               readyPlayers := ["aaaaaaaaaaa"; "bbbbbbbbbbb"];
               playersRef := [("aaaaaaaaaaa", Some p);
                              ("bbbbbbbbbbb", Some p)];
               loopEnabled := false |} in
  let st' := (removeVideo "aaaaaaaaaaa" st).1 in
  NoDup (JsMap.keys (playersRef st)) ∧
  (∀ p0, player_of st "aaaaaaaaaaa" = Some p0 → destroy p0 = returns) ∧
  player_playVideo "bbbbbbbbbbb" ∈ calls_of (press w 0 st').2 ∧
  player_playVideo "aaaaaaaaaaa"
  ∉ (press w 0 st').1 ++ calls_of (press w 0 st').2.
Proof.
  intros w p v st st'.
  assert (NoDup (JsMap.keys (playersRef st))) as Hkeys.
  { apply (bool_decide_unpack _). by vm_compute. }
  assert (∀ p0, player_of st "aaaaaaaaaaa" = Some p0 → destroy p0 = returns)
    as Hdestroy.
  { intros p0 Hp0. cbn in Hp0. by injection Hp0 as <-. }
  split; [exact Hkeys|]. split; [exact Hdestroy|]. split.
  - vm_compute. right. by left.
  - apply (removed_surface_not_played w 0 st "aaaaaaaaaaa" Hkeys), Hdestroy.
Defined.

(** *** The timers of [playAll] run out *)

Lemma run_history_bound fuel l :
  (length (history (run fuel l)) + load (queue (run fuel l))
   ≤ length (history l) + load (queue l))%nat.
Proof.
  revert l. induction fuel as [|fuel IH]; intros l; simpl; [done|].
  unfold tick. destruct (queue l) as [|t q] eqn:Hq; [by rewrite Hq|].
  pose proof (fire_weight (task t) (counters l)) as Hw.
  destruct (fire (task t) (counters l)) as [[calls armed] c'].
  etrans; [apply IH|]. cbn [history queue fst snd] in *.
  rewrite load_arm, length_app. unfold load at 2. cbn. unfold load. lia.
Qed.

(** X21: one press of the button arms a bounded number of timers:
    whatever the players answer, the timers of [playAll] and those they
    arm in turn all fire and none is left, after at most four timers
    and three for each surface that is marked ready or registered. *)
Theorem press_runs_out w now st :
  let l := (press w now st).2 in
  queue l = [] ∧
  (length (fired l)
   ≤ 4 + 3 * Nat.max (length (readyPlayers st)) (length (playersRef st)))%nat.
Proof.
  intros l. subst l. unfold press.
  destruct (playAll_cases w now st) as [[m ->]|(ts & -> & _ & Hkind)].
  - cbn. split; [done | lia].
  - cbn [snd fst arm foldl setTimeout].
    set (q := [{| due := (now + 500)%Z; task := start_players ts |}]).
    set (l0 := {| clock := now; queue := q;
                  counters := {| playedCount := 0; retryCount := 0 |};
                  history := [] |}).
    split; [by apply run_drains|].
    pose proof (run_history_bound (load q) l0) as Hbound.
    unfold fired. rewrite length_fmap.
    assert (load q = 4 + 3 * length ts)%nat as Hload
      by (unfold load; cbn; lia).
    assert (length ts
            ≤ Nat.max (length (readyPlayers st)) (length (playersRef st)))%nat.
    { destruct Hkind as [->|[->| ->]].
      - unfold ready_entries. etrans; [apply length_non_null|].
        rewrite length_map. lia.
      - unfold available_entries. pose proof (length_non_null (playersRef st)).
        lia.
      - unfold functional_entries. etrans; [apply length_filter|].
        pose proof (length_non_null (playersRef st)). lia. }
    change (length (history l0)) with 0%nat in Hbound.
    change (queue l0) with q in Hbound.
    remember (run (load q) l0) as lf. lia.
Qed.

(** *** The count that is logged *)

Lemma fire_arms_no_check t c x :
  is_start t = false → x ∈ (fire t c).1.2.*2 → is_check x = false.
Proof.
  intros Hstart.
  destruct t as [es|v p|v p|es|es|v p|]; simpl in *; try done.
  - assert (∀ z, x ∈ (attempt_in_state v p z c).1.2.*2 → is_check x = false)
      as Hz.
    { intros z. unfold attempt_in_state.
      destruct (startable z);
        [by destruct (playVideo p); simpl; intros ?%elem_of_nil|].
      repeat case_bool_decide; simpl; try by intros ?%elem_of_nil.
      by intros ->%list_elem_of_singleton. }
    destruct (is_function (playVideo p)); simpl; [|by intros ?%elem_of_nil].
    destruct (getPlayerState p); simpl;
      [apply Hz | by intros ?%elem_of_nil | apply Hz].
  - by destruct (playVideo p); simpl; intros ?%elem_of_nil.
  - destruct (Nat.eqb (playedCount c) 0); simpl.
    + by intros ->%list_elem_of_singleton.
    + by intros ?%elem_of_nil.
  - rewrite fmap_app, stagger_tasks. simpl.
    intros [Hx|Hx]%elem_of_app.
    + by apply list_elem_of_fmap in Hx as (e & -> & _).
    + by apply list_elem_of_singleton in Hx as ->.
  - by destruct (playVideo p); simpl; intros ?%elem_of_nil.
  - by intros ?%elem_of_nil.
Qed.

Lemma fire_arms_not_attempt t c x :
  is_start t = false → x ∈ (fire t c).1.2.*2 → is_attempt x = false.
Proof.
  intros Hstart Hx.
  pose proof (fire_arms_no_attempt t c Hstart) as Hnone.
  destruct (is_attempt x) eqn:Hatt; [|done].
  exfalso. eapply (filter_nil_not_elem_of _ _ x Hnone); [|done].
  by rewrite Hatt.
Qed.

(** Only the check of the results logs a count. *)
Lemma fire_log t c n :
  log_played n ∈ (fire t c).1.1 → is_check t = true ∧ n = playedCount c.
Proof.
  destruct t as [es|v p|v p|es|es|v p|]; simpl.
  - by intros ?%elem_of_nil.
  - assert (∀ z, log_played n ∉ (attempt_in_state v p z c).1.1) as Hz.
    { intros z. unfold attempt_in_state.
      destruct (startable z).
      - destruct (playVideo p); simpl;
          intros [?|[?|?%elem_of_nil]%elem_of_cons]%elem_of_cons; done.
      - repeat case_bool_decide; simpl;
          try (by intros ?%elem_of_nil).
        by intros [?|?%elem_of_nil]%elem_of_cons. }
    destruct (is_function (playVideo p)); simpl; [|by intros ?%elem_of_nil].
    destruct (getPlayerState p); simpl; intros Hin;
      [by apply Hz in Hin | by apply elem_of_nil in Hin | by apply Hz in Hin].
  - destruct (playVideo p); simpl; [by intros ?%elem_of_nil| |].
    + by intros [?|[?|?%elem_of_nil]%elem_of_cons]%elem_of_cons.
    + by intros [?|?%elem_of_nil]%elem_of_cons.
  - intros [= ->]%list_elem_of_singleton. done.
  - by intros ?%elem_of_nil.
  - destruct (playVideo p); simpl; [by intros ?%elem_of_nil| |];
      by intros [?|?%elem_of_nil]%elem_of_cons.
  - destruct (Nat.eqb (retryCount c) 0); simpl; [|by intros ?%elem_of_nil].
    by intros [?|?%elem_of_nil]%elem_of_cons.
Qed.

Lemma filter_counts_attempts (l : list Task) :
  filter counts l = filter counts (filter is_attempt l).
Proof.
  induction l as [|t l IH]; [done|].
  rewrite (filter_cons is_attempt), !(filter_cons counts).
  destruct (decide (counts t)) as [Hc|Hc].
  - rewrite decide_True
      by (by apply Is_true_true, counts_is_attempt, Is_true_true).
    rewrite filter_cons_True by done. by rewrite IH.
  - destruct (decide (is_attempt t)); [rewrite filter_cons_False by done|];
      done.
Qed.

Section counting.
Context (ahead : list Timer → Prop) (left_behind : list Task → Prop).
Hypothesis ahead_pop :
  ∀ t rest, ahead (t :: rest) → is_check (task t) = false → ahead rest.
Hypothesis ahead_insert :
  ∀ x queue, ahead queue →
    is_attempt (task x) = false → is_check (task x) = false →
    ahead (setTimeout x queue).
Hypothesis ahead_check :
  ∀ t rest, ahead (t :: rest) → is_check (task t) = true →
    left_behind (task <$> rest).

Lemma ahead_arm clock armed queue :
  ahead queue →
  (∀ x, x ∈ armed.*2 → is_attempt x = false ∧ is_check x = false) →
  ahead (arm clock armed queue).
Proof.
  unfold arm. revert queue.
  induction armed as [|a armed IH]; intros queue Hq Harmed; [done|].
  cbn. apply IH.
  - apply ahead_insert; [done| |]; apply (Harmed a.2); by left.
  - intros x Hx. apply Harmed. by right.
Qed.

Lemma tick_counting targets l l' :
  counting ahead left_behind targets l → tick l = Some l' →
  counting ahead left_behind targets l'.
Proof.
  intros [Hstarted Hall Hlog] Htick.
  destruct (tick_Some _ _ Htick) as (t & rest & Hq & Hq' & Hfired & Hcalls).
  assert (is_start (task t) = false) as Hstart.
  { apply (started_once _ _ Hstarted). unfold waiting. rewrite Hq. by left. }
  pose proof (fire_arms_no_check (task t) (counters l)) as Hnc.
  pose proof (fire_arms_not_attempt (task t) (counters l)) as Hna.
  pose proof (fire_log (task t) (counters l)) as Hfl.
  pose proof (started_played _ _ Hstarted) as Hplayed.
  assert (is_check (task t) = true →
          (fire (task t) (counters l)).1.1
          = [log_played (playedCount (counters l))]) as Hfc.
  { by destruct (task t). }
  set (armed := (fire (task t) (counters l)).1.2) in *.
  set (calls := (fire (task t) (counters l)).1.1) in *.
  assert (waiting l' ≡ₚ armed.*2 ++ (task <$> rest)) as Hwaiting.
  { unfold waiting. rewrite Hq'. apply waiting_arm. }
  assert (filter is_check armed.*2 = []) as Harmed_check.
  { apply filter_none. intros x Hx. rewrite (Hnc x Hstart Hx). by intros []. }
  assert (filter is_attempt armed.*2 = []) as Harmed_attempt.
  { apply filter_none. intros x Hx. rewrite (Hna x Hstart Hx). by intros []. }
  assert (filter is_check (waiting l') ≡ₚ filter is_check (task <$> rest))
    as Hchecks.
  { by rewrite Hwaiting, filter_app, Harmed_check. }
  unfold waiting in Hlog, Hall. rewrite Hq, fmap_cons in Hlog, Hall.
  assert (filter is_attempt (waiting l' ++ fired l') ≡ₚ attempts_of targets)
    as Hall'.
  { rewrite Hwaiting, Hfired, <- Hall.
    rewrite !filter_app, Harmed_attempt. cbn [app].
    rewrite (filter_cons _ (task t) (task <$> rest)).
    rewrite (filter_cons _ (task t) []), filter_nil.
    destruct (decide (is_attempt (task t))); [|by rewrite app_nil_r].
    cbn [app]. by rewrite app_assoc, <- Permutation_cons_append. }
  split; [by eapply tick_started | done |].
  destruct Hlog as [(Hone & Hahead & Hnolog)
                   |(Hnone & before & after & behind & Hf & Hn & Hb & Hleft)].
  - rewrite filter_cons in Hone.
    destruct (decide (is_check (task t))) as [Hc|Hc].
    + injection Hone as Htask Hrest. right.
      apply Is_true_true in Hc.
      split. { apply Permutation_nil_r. by rewrite Hchecks, Hrest. }
      exists (fired l), [], (task <$> rest).
      split; [by rewrite Hfired, Htask|]. split; [|split].
      * intros n. rewrite Hcalls, elem_of_app. split.
        -- intros [Hin|Hin]; [by apply Hnolog in Hin|].
           apply Hfl in Hin as [_ ->]. exact Hplayed.
        -- intros ->. right. subst calls. rewrite (Hfc Hc), Hplayed. by left.
      * rewrite <- Hall. cbn [app]. rewrite (filter_cons _ (task t)).
        rewrite decide_False by (rewrite Htask; by intros []).
        done.
      * by eapply ahead_check.
    + left.
      assert (is_check (task t) = false) as Hc'
        by (by destruct (is_check (task t)); [destruct Hc|]).
      split; [|split].
      * apply Permutation_singleton_r. by rewrite Hchecks, Hone.
      * rewrite Hq'. apply ahead_arm; [by eapply ahead_pop|].
        intros x Hx. split; [by apply Hna | by apply Hnc].
      * intros n. rewrite Hcalls, elem_of_app.
        intros [Hin|Hin]; [by apply Hnolog in Hin|].
        apply Hfl in Hin as [Hin _]. congruence.
  - right. rewrite filter_cons in Hnone.
    destruct (decide (is_check (task t))) as [Hc|Hc]; [done|].
    split. { apply Permutation_nil_r. by rewrite Hchecks, Hnone. }
    exists before, (after ++ [task t]), behind.
    split; [by rewrite Hfired, Hf, <- app_assoc|]. split; [|done].
    intros n. rewrite Hcalls, elem_of_app, <- Hn. split; [|by left].
    intros [Hin|Hin]; [done|].
    apply Hfl in Hin as [Hin _]. rewrite Hin in Hc. by destruct Hc.
Qed.

Lemma run_counting targets fuel l :
  counting ahead left_behind targets l →
  counting ahead left_behind targets (run fuel l).
Proof.
  revert l. induction fuel as [|fuel IH]; intros l Hl; simpl; [done|].
  destruct (tick l) as [l'|] eqn:Htick; [|done].
  apply IH. by eapply tick_counting.
Qed.

(** From the first timer on: if the queue it arms keeps the order
    [ahead], then at the end one count has been logged, that of the
    attempts fired before the check, and [left_behind] holds of what
    was still waiting when the check fired. *)
Lemma press_counting w now st calls targets :
  playAll w now st = (calls, [(500%Z, start_players targets)]) →
  ahead (arm (now + 500)
           (stagger 200%Z attempt targets
            ++ [((Z.of_nat (length targets) * 100 + 1000)%Z,
                 check_results targets)]) []) →
  let l := (press w now st).2 in
  queue l = [] ∧
  (∀ e, e ∈ targets → attempt e.1 e.2 ∈ fired l) ∧
  playedCount (counters l) = length (filter counts (attempts_of targets)) ∧
  ∃ before behind,
    (∀ n, log_played n ∈ calls_of l ↔ n = length (filter counts before)) ∧
    filter is_attempt (behind ++ before) ≡ₚ attempts_of targets ∧
    left_behind behind.
Proof.
  intros Hplay Hahead l. subst l. unfold press. rewrite Hplay.
  cbn [snd arm foldl setTimeout fst].
  destruct (start_players_started now (now + 500)%Z targets
              {| playedCount := 0; retryCount := 0 |})
    as (l1 & Htick & Hstarted & Hload).
  assert (load [{| due := (now + 500)%Z; task := start_players targets |}]
          = S (3 + 3 * length targets)) as -> by (unfold load; simpl; lia).
  cbn [run]. rewrite Htick.
  assert (queue l1
          = arm (now + 500)
              (stagger 200%Z attempt targets
               ++ [((Z.of_nat (length targets) * 100 + 1000)%Z,
                    check_results targets)]) [] ∧
          fired l1 = [start_players targets] ∧ calls_of l1 = [])
    as (Hq1 & Hf1 & Hc1).
  { unfold tick in Htick. cbn [queue task due counters fire history] in Htick.
    injection Htick as Hl1. by subst l1. }
  assert (waiting l1 ≡ₚ attempts_of targets ++ [check_results targets])
    as Hw1.
  { unfold waiting. rewrite Hq1, waiting_arm, fmap_app, stagger_tasks.
    cbn. by rewrite app_nil_r. }
  assert (∀ (P : Task → bool) (l : list Task),
            (∀ x, x ∈ l → P x = true) → filter P l = l) as Hfilter_all.
  { intros P l0 Hl0. induction l0 as [|x l0 IH]; [done|].
    rewrite filter_cons_True by (apply Is_true_true, Hl0; by left).
    rewrite IH; [done|]. intros y Hy. apply Hl0. by right. }
  assert (filter is_attempt (attempts_of targets) = attempts_of targets)
    as Hatt.
  { apply Hfilter_all. intros x (e & -> & _)%list_elem_of_fmap. done. }
  assert (filter is_check (attempts_of targets) = []) as Hchk.
  { apply filter_none. intros x (e & -> & _)%list_elem_of_fmap. by intros []. }
  assert (counting ahead left_behind targets l1) as Hcounting.
  { split; [done| |].
    - rewrite Hw1, Hf1, !filter_app, Hatt.
      rewrite !filter_cons_False by (by intros []).
      by rewrite filter_nil, !app_nil_r.
    - left. split; [|split].
      + apply Permutation_singleton_r. rewrite Hw1, filter_app, Hchk.
        by rewrite filter_cons_True, filter_nil.
      + by rewrite Hq1.
      + rewrite Hc1. intros n. apply not_elem_of_nil. }
  pose proof (run_drains (3 + 3 * length targets) l1) as Hdrain.
  pose proof (run_counting targets (3 + 3 * length targets) l1 Hcounting)
    as [[_ Hattempts _ Hplayed _] Hall Hlog].
  set (lf := run (3 + 3 * length targets) l1) in *.
  unfold waiting in *. rewrite Hdrain in * by lia.
  rewrite fmap_nil in *. cbn [app] in *.
  destruct Hlog as [[? _]|(_ & before & after & behind & Hf & Hn & Hb & Hleft)];
    [done|].
  split; [done|]. split; [done|]. split.
  - by rewrite Hplayed, filter_counts_attempts, Hall.
  - by exists before, behind.
Qed.

End counting.

(** *** The order of the queue *)

Lemma setTimeout_append t q :
  Forall (λ t', (due t' ≤ due t)%Z) q → setTimeout t q = q ++ [t].
Proof.
  induction 1 as [|t' q Hle _ IH]; [done|].
  cbn [setTimeout]. rewrite (proj2 (Z.leb_le _ _) Hle). by rewrite IH.
Qed.

Lemma setTimeout_between t a b :
  Forall (λ t', (due t' ≤ due t)%Z) a →
  (∀ t', head b = Some t' → (due t < due t')%Z) →
  setTimeout t (a ++ b) = a ++ t :: b.
Proof.
  intros Ha Hb. induction Ha as [|t' a Hle _ IH].
  - destruct b as [|t' b]; [done|]. cbn [app setTimeout].
    by rewrite (proj2 (Z.leb_gt _ _) (Hb t' eq_refl)).
  - cbn [app setTimeout]. rewrite (proj2 (Z.leb_le _ _) Hle). by rewrite IH.
Qed.

Lemma setTimeout_split x q :
  ∃ q1 q2, q = q1 ++ q2 ∧ setTimeout x q = q1 ++ x :: q2.
Proof.
  induction q as [|t q (q1 & q2 & Hq & Hs)]; [by exists [], []|].
  cbn [setTimeout]. destruct (Z.leb (due t) (due x)).
  - exists (t :: q1), q2. cbn [app]. split; congruence.
  - by exists [], (t :: q).
Qed.

Lemma arm_snoc c armed a q :
  arm c (armed ++ [a]) q
  = setTimeout {| due := (c + a.1)%Z; task := a.2 |} (arm c armed q).
Proof. unfold arm. by rewrite foldl_app. Qed.

Lemma stagger_snoc gap callback es e :
  stagger gap callback (es ++ [e])
  = stagger gap callback es
    ++ [((Z.of_nat (length es) * gap)%Z, callback e.1 e.2)].
Proof. unfold stagger. rewrite imap_app. cbn. by rewrite Nat.add_0_r. Qed.

Lemma lookup_stagger_timers c gap callback es i t :
  timers_of c (stagger gap callback es) !! i = Some t →
  ∃ e, es !! i = Some e ∧
       t = {| due := (c + Z.of_nat i * gap)%Z; task := callback e.1 e.2 |}.
Proof.
  unfold timers_of, stagger. rewrite list_lookup_fmap, list_lookup_imap.
  destruct (es !! i) as [e|]; [|done]. cbn. intros [= <-]. by exists e.
Qed.

(** Armed one after the other with growing delays, the timers wait in
    the order of the list. *)
Lemma arm_stagger c gap callback es :
  (0 ≤ gap)%Z →
  arm c (stagger gap callback es) [] = timers_of c (stagger gap callback es).
Proof.
  intros Hgap. induction es as [|e es IH] using rev_ind; [done|].
  rewrite stagger_snoc, arm_snoc, IH. unfold timers_of at 2.
  rewrite fmap_app. apply setTimeout_append.
  apply Forall_forall. intros t [i Hi]%list_elem_of_lookup.
  pose proof (lookup_lt_Some _ _ _ Hi) as Hlt.
  apply lookup_stagger_timers in Hi as (e' & He' & ->).
  apply lookup_lt_Some in He'. cbn. nia.
Qed.

Lemma filter_attempts_of targets :
  filter is_attempt (attempts_of targets) = attempts_of targets.
Proof.
  unfold attempts_of. induction targets as [|e es IH]; [done|].
  rewrite fmap_cons, filter_cons_True by done. by rewrite IH.
Qed.

Lemma check_splits_pop targets late t rest :
  check_splits targets late (t :: rest) → is_check (task t) = false →
  check_splits targets late rest.
Proof.
  intros (a & b & tc & Hq & Htc & Ha & Hb) Ht.
  destruct a as [|t' a]; cbn [app] in Hq; injection Hq as Hhd Htl.
  - subst. by rewrite Htc in Ht.
  - exists a, b, tc. apply Forall_cons in Ha as [_ Ha]. done.
Qed.

Lemma check_splits_insert targets late x q :
  check_splits targets late q →
  is_attempt (task x) = false → is_check (task x) = false →
  check_splits targets late (setTimeout x q).
Proof.
  intros (a & b & tc & Hq & Htc & Ha & Hb) Hxa Hxc.
  destruct (setTimeout_split x q) as (q1 & q2 & Hq' & ->).
  rewrite Hq in Hq'.
  apply app_eq_inv in Hq' as [(k & -> & ->)|(k & -> & Hk)].
  - exists (q1 ++ x :: k), b, tc. split; [by rewrite <- !app_assoc|].
    split; [done|]. split; [|done].
    apply Forall_app in Ha as [Hq1 Hk].
    apply Forall_app. split; [done|]. by apply Forall_cons.
  - destruct k as [|t k]; cbn [app] in Hk.
    + subst q2. exists (a ++ [x]), b, tc.
      split; [by rewrite app_nil_r, <- app_assoc|]. split; [done|].
      split; [|done]. apply Forall_app. split; [done|].
      by apply Forall_singleton.
    + injection Hk as <- ->. exists a, (k ++ x :: q2), tc.
      split; [by rewrite <- app_assoc|]. split; [done|]. split; [done|].
      rewrite <- Hb, !fmap_app, fmap_cons, !filter_app.
      by rewrite filter_cons_False by (rewrite Hxa; by intros []).
Qed.

Lemma check_splits_check targets late t rest :
  check_splits targets late (t :: rest) → is_check (task t) = true →
  attempts_left late (task <$> rest).
Proof.
  intros (a & b & tc & Hq & Htc & Ha & Hb) Ht.
  destruct a as [|t' a]; cbn [app] in Hq; injection Hq as Hhd Htl.
  - by subst.
  - subst. apply Forall_cons in Ha as [Ha _]. congruence.
Qed.

(** The queue [start_players] leaves: the attempts of the first
    [in_time] targets, the check of the results, the other attempts. *)
Lemma check_splits_start c targets :
  check_splits targets (drop (in_time targets) targets)
    (arm c
       (stagger 200%Z attempt targets
        ++ [((Z.of_nat (length targets) * 100 + 1000)%Z,
             check_results targets)]) []).
Proof.
  rewrite arm_snoc, arm_stagger by lia. cbn [fst snd].
  set (timers := timers_of c (stagger 200%Z attempt targets)).
  set (m := in_time targets).
  pose proof (Nat.div_mod_eq (length targets) 2) as Hdiv.
  pose proof (Nat.mod_upper_bound (length targets) 2 ltac:(lia)) as Hmod.
  assert (task <$> timers = attempts_of targets) as Htasks.
  { unfold timers, timers_of. rewrite <- list_fmap_compose.
    apply stagger_tasks. }
  rewrite <- (take_drop m timers) at 1.
  rewrite setTimeout_between.
  - eexists (take m timers), (drop m timers), _.
    split; [done|]. split; [done|]. split.
    + apply Forall_forall. intros t (i & Hi & _)%elem_of_take.
      by apply lookup_stagger_timers in Hi as (e & _ & ->).
    + rewrite fmap_drop, Htasks. unfold attempts_of at 1.
      rewrite <- fmap_drop. by rewrite filter_attempts_of.
  - apply Forall_forall. intros t (i & Hi & Hlt)%elem_of_take.
    apply lookup_stagger_timers in Hi as (e & _ & ->).
    subst m. unfold in_time in Hlt. cbn [due]. lia.
  - intros t. rewrite head_lookup, lookup_drop. intros Hi.
    apply lookup_stagger_timers in Hi as (e & _ & ->).
    subst m. unfold in_time. cbn [due]. lia.
Qed.

(** From the press of the button to the last timer: the counter ends at
    the number of attempts that count, and the one count logged is that
    of the attempts of the first [in_time] targets. *)
Lemma press_logged w now st calls targets :
  playAll w now st = (calls, [(500%Z, start_players targets)]) →
  let l := (press w now st).2 in
  playedCount (counters l) = length (filter counts (attempts_of targets)) ∧
  ∃ before,
    (∀ n, log_played n ∈ calls_of l ↔ n = length (filter counts before)) ∧
    filter is_attempt before
    ≡ₚ attempts_of (take (in_time targets) targets).
Proof.
  intros Hplay l.
  destruct (press_counting
              (check_splits targets (drop (in_time targets) targets))
              (attempts_left (drop (in_time targets) targets))
              (check_splits_pop _ _) (check_splits_insert _ _)
              (check_splits_check _ _)
              w now st calls targets Hplay (check_splits_start _ _))
    as (_ & _ & Hplayed & before & behind & Hlog & Hperm & Hbehind).
  split; [done|]. exists before. split; [done|].
  unfold attempts_left in Hbehind. rewrite filter_app, Hbehind in Hperm.
  assert (attempts_of targets
          = attempts_of (take (in_time targets) targets)
            ++ attempts_of (drop (in_time targets) targets)) as Hsplit.
  { unfold attempts_of. by rewrite <- fmap_app, take_drop. }
  rewrite Hsplit, (Permutation_app_comm (attempts_of (take _ _))) in Hperm.
  by apply Permutation_app_inv_l in Hperm.
Qed.

(** X22: one press of the button logs exactly one count of started
    clips, and it is the number of attempts that count among the
    targets whose timer is due no later than the check of the results:
    the first [length / 2 + 6] of them. *)
Theorem logged_count_in_time w now st calls targets :
  playAll w now st = (calls, [(500%Z, start_players targets)]) →
  let l := (press w now st).2 in
  ∀ n, log_played n ∈ calls_of l
       ↔ n = length (filter counts
                       (attempts_of (take (in_time targets) targets))).
Proof.
  intros Hplay l n.
  destruct (press_logged w now st calls targets Hplay)
    as (_ & before & Hlog & Hperm).
  fold l in Hlog. rewrite Hlog.
  by rewrite (filter_counts_attempts before), Hperm.
Qed.

Lemma logged_count_in_time_witness :
  let w := {| name := ""; BroadcastChannel := false; YT_Player := true |} in
  let p := {| playVideo := returns; pauseVideo := returns;
              seekTo := returns; getPlayerState := state_returns 5;
              destroy := returns |} in
  let st := (onPlayerReady "aaaaaaaaaaa" p
               (addVideo "aaaaaaaaaaa" "https://youtu.be/aaaaaaaaaaa"
                  "Video 1"
                  {| videos := []; readyPlayers := []; playersRef := [];
                     loopEnabled := false |})).1 in
  playAll w 0 st
  = (setIsPlaying true :: broadcastSyncEvent w 0 "play" no_data,
     [(500%Z, start_players [("aaaaaaaaaaa", p)])]) ∧
  ∀ n, log_played n ∈ calls_of (press w 0 st).2 ↔ n = 1%nat.
Proof.
  intros w p st. split; [reflexivity|].
  exact (logged_count_in_time w 0 st _ [("aaaaaaaaaaa", p)] eq_refl).
Defined.

(** X23: with at most twelve targets every attempt fires before the
    check of the results, so the count that is logged is the value the
    counter ends with. *)
Theorem few_targets_log_final_count w now st calls targets :
  playAll w now st = (calls, [(500%Z, start_players targets)]) →
  (length targets ≤ 12)%nat →
  let l := (press w now st).2 in
  ∀ n, log_played n ∈ calls_of l ↔ n = playedCount (counters l).
Proof.
  intros Hplay Hlen l n.
  destruct (press_logged w now st calls targets Hplay)
    as (Hplayed & before & Hlog & Hperm).
  fold l in Hlog, Hplayed. rewrite Hlog, Hplayed.
  rewrite take_ge in Hperm.
  - by rewrite (filter_counts_attempts before), Hperm.
  - unfold in_time.
    pose proof (Nat.div_mod_eq (length targets) 2).
    pose proof (Nat.mod_upper_bound (length targets) 2 ltac:(lia)). lia.
Qed.

Lemma few_targets_log_final_count_witness :
  let w := {| name := ""; BroadcastChannel := false; YT_Player := true |} in
  let p := {| playVideo := returns; pauseVideo := returns;
              seekTo := returns; getPlayerState := state_returns 5;
              destroy := returns |} in
  let st := (onPlayerReady "aaaaaaaaaaa" p
               (addVideo "aaaaaaaaaaa" "https://youtu.be/aaaaaaaaaaa"
                  "Video 1"
                  {| videos := []; readyPlayers := []; playersRef := [];
                     loopEnabled := false |})).1 in
  playAll w 0 st
  = (setIsPlaying true :: broadcastSyncEvent w 0 "play" no_data,
     [(500%Z, start_players [("aaaaaaaaaaa", p)])]) ∧
  (length [("aaaaaaaaaaa", p)] ≤ 12)%nat ∧
  ∀ n, log_played n ∈ calls_of (press w 0 st).2
       ↔ n = playedCount (counters (press w 0 st).2).
Proof.
  intros w p st. split; [reflexivity|]. split; [cbn; lia|].
  apply (few_targets_log_final_count w 0 st _ [("aaaaaaaaaaa", p)] eq_refl).
  cbn. lia.
Defined.

(** X24: a target whose attempt is due after the check of the results
    is not in the count that is logged: if its attempt counts, the
    count logged is below the value the counter ends with. *)
Theorem late_target_not_logged w now st calls targets e :
  playAll w now st = (calls, [(500%Z, start_players targets)]) →
  e ∈ drop (in_time targets) targets →
  counts (attempt e.1 e.2) = true →
  let l := (press w now st).2 in
  ∃ k, (∀ n, log_played n ∈ calls_of l ↔ n = k) ∧
       (k < playedCount (counters l))%nat.
Proof.
  intros Hplay He Hcounts l.
  destruct (press_logged w now st calls targets Hplay)
    as (Hplayed & before & Hlog & Hperm).
  fold l in Hlog, Hplayed.
  exists (length (filter counts before)). split; [done|].
  rewrite Hplayed, (filter_counts_attempts before), Hperm.
  assert (attempts_of targets
          = attempts_of (take (in_time targets) targets)
            ++ attempts_of (drop (in_time targets) targets)) as ->.
  { unfold attempts_of. by rewrite <- fmap_app, take_drop. }
  rewrite filter_app, length_app.
  assert (attempt e.1 e.2
          ∈ filter counts (attempts_of (drop (in_time targets) targets)))
    as Hin.
  { apply list_elem_of_filter. split; [by apply Is_true_true|].
    apply list_elem_of_fmap. by exists e. }
  destruct (filter counts (attempts_of (drop _ _)));
    [by apply elem_of_nil in Hin|].
  cbn [length]. lia.
Qed.

Lemma late_target_not_logged_witness :
  let w := {| name := ""; BroadcastChannel := false; YT_Player := true |} in
  let p := {| playVideo := returns; pauseVideo := returns;
              seekTo := returns; getPlayerState := state_returns 5;
              destroy := returns |} in
  let ids := ["a"; "b"; "c"; "d"; "e"; "f"; "g"; "h"; "i"; "j"; "k"; "l";
              "m"] in
  let st := {| videos := [{| id := "a"; url := "https://youtu.be/a";
                             title := "Video 1"; startTime := 0;
                             windowId := None |}];
               readyPlayers := ids;
               playersRef := (λ v, (v, Some p)) <$> ids;
               loopEnabled := false |} in
  let targets := (λ v, (v, p)) <$> ids in
  playAll w 0 st
  = (setIsPlaying true :: broadcastSyncEvent w 0 "play" no_data,
     [(500%Z, start_players targets)]) ∧
  ("m", p) ∈ drop (in_time targets) targets ∧
  counts (attempt "m" p) = true ∧
  ∃ k, (∀ n, log_played n ∈ calls_of (press w 0 st).2 ↔ n = k) ∧
       (k < playedCount (counters (press w 0 st).2))%nat.
Proof.
  intros w p ids st targets.
  assert (("m", p) ∈ drop (in_time targets) targets) as Hlate
    by (cbn; by left).
  split; [reflexivity|]. split; [exact Hlate|]. split; [reflexivity|].
  exact (late_target_not_logged w 0 st _ targets ("m", p) eq_refl Hlate
           eq_refl).
Defined.

End Aggregator_more.
